(** * Connect Four: the game engine of [src/features/GameBoard/utils.ts]

    A shallow embedding of the state-transition function [placeDisc] and of
    the helpers it calls, followed by the properties of the engine.

    JavaScript arrays are lists; an index that is not an element of the
    array reads as [undefined], which is kept apart from [null].  Reading a
    property of [undefined] throws, and the [while] loop of [countCells] is
    run with fuel, so a computation yields a value, a [TypeError] or runs
    out of fuel. *)

From Stdlib Require Import ZArith Lia.
From stdpp Require Import base tactics decidable option list list_numbers.

Local Open Scope Z_scope.

(** ** Data model ([types.ts]) *)

Inductive Player := red | yellow.

#[global] Instance Player_eq_dec : EqDecision Player.
Proof. solve_decision. Defined.

(** [Cell = Player | null]: [None] is [null]. *)
Definition Cell : Type := option Player.

Definition GameBoard : Type := list (list Cell).

Inductive GameResult := win | draw | continue.

#[global] Instance GameResult_eq_dec : EqDecision GameResult.
Proof. solve_decision. Defined.

(** A coordinate pair [[row, col]]. *)
Definition Coord : Type := (Z * Z)%type.

Record GameState := mkGameState {
  result : GameResult;
  gameBoard : GameBoard;
  currentPlayer : Player;
  winningDiscs : option (list Coord)
}.

(** Modelled from the spec: the module [constants] (imported by the hook and
    by the tests) is not among the sources; the spec fixes ROWS = 6 and
    COLUMNS = 7, and [utils.ts] has the same numbers as literals. *)
Definition ROWS : Z := 6.
Definition COLUMNS : Z := 7.

(** ** Outcomes of a computation *)

Inductive res (A : Type) : Type :=
| Ret (a : A)
| TypeError
| Timeout.
Arguments Ret {A} a.
Arguments TypeError {A}.
Arguments Timeout {A}.

#[global] Instance res_bind : MBind res := λ A B f m,
  match m with
  | Ret a => f a
  | TypeError => TypeError
  | Timeout => Timeout
  end.

(** ** Array access *)

(** [arr[i]] for an integer [i]: [None] is [undefined]. *)
Definition js_index {A : Type} (arr : list A) (i : Z) : option A :=
  if decide (0 ≤ i) then arr !! Z.to_nat i else None.

(** [arr[i] = v] for an index of the array.  (Outside the array JavaScript
    would grow it; [placeDisc] only writes where [getEmptyRow] has just read
    [null], see [getEmptyRow_null].) *)
Definition js_assign {A : Type} (arr : list A) (i : Z) (v : A) : list A :=
  if decide (0 ≤ i) then <[Z.to_nat i := v]> arr else arr.

(** [board[r][c]]: throws when [board[r]] is [undefined]. *)
Definition readCell (board : GameBoard) (r c : Z) : res (option Cell) :=
  match js_index board r with
  | None => TypeError
  | Some cells => Ret (js_index cells c)
  end.

(** [board[r][c] = v]: throws when [board[r]] is [undefined]. *)
Definition writeCell (board : GameBoard) (r c : Z) (v : Cell) : res GameBoard :=
  match js_index board r with
  | None => TypeError
  | Some cells => Ret (js_assign board r (js_assign cells c v))
  end.

(** [v === null] and [v === player] on a value read from the board. *)
Definition is_null (v : option Cell) : bool := bool_decide (v = Some None).
Definition is_player (v : option Cell) (p : Player) : bool :=
  bool_decide (v = Some (Some p)).

(** ** The engine ([utils.ts]) *)

(** The [while] loop of [countCells], entered with the current [r] and [c]. *)
Fixpoint countCells_loop (fuel : nat) (state : GameState)
    (r c rowDir colDir : Z) : res (list Coord) :=
  match fuel with
  | O => Timeout
  | S fuel' =>
      if bool_decide (0 ≤ r) && bool_decide (r < 6) &&
         bool_decide (0 ≤ c) && bool_decide (c < 7)
      then
        v ← readCell (gameBoard state) r c;
        if is_player v (currentPlayer state)
        then
          discs ← countCells_loop fuel' state (r + rowDir) (c + colDir)
                     rowDir colDir;
          Ret ((r, c) :: discs)
        else Ret []
      else Ret []
  end.

Definition countCells (fuel : nat) (state : GameState)
    (row col rowDir colDir : Z) : res (list Coord) :=
  countCells_loop fuel state (row + rowDir) (col + colDir) rowDir colDir.

Definition checkDirection (fuel : nat) (state : GameState)
    (row col rowDir colDir : Z) : res (option (list Coord)) :=
  fwd ← countCells fuel state row col rowDir colDir;
  bwd ← countCells fuel state row col (- rowDir) (- colDir);
  let winningDiscs := (row, col) :: fwd ++ bwd in
  if bool_decide (4 ≤ Z.of_nat (length winningDiscs))
  then Ret (Some winningDiscs)
  else Ret None.

(** [a || b] on results that are an array (truthy) or [null]. *)
Definition orElse {A : Type} (a b : res (option A)) : res (option A) :=
  x ← a;
  match x with
  | Some _ => Ret x
  | None => b
  end.

Definition isWinningMove (fuel : nat) (state : GameState) (row col : Z)
    : res (option (list Coord)) :=
  orElse (checkDirection fuel state row col 0 1)
    (orElse (checkDirection fuel state row col 1 0)
      (orElse (checkDirection fuel state row col 1 1)
        (checkDirection fuel state row col 1 (-1)))).

Definition isWinningCell (state : GameState) (row col : Z) : bool :=
  match winningDiscs state with
  | None => false
  | Some discs =>
      existsb (λ '(r, c), bool_decide (r = row) && bool_decide (c = col)) discs
  end.

Definition isBoardFull (board : GameBoard) : res bool :=
  match js_index board 0 with
  | None => TypeError
  | Some top => Ret (forallb (λ cell : Cell, bool_decide (cell ≠ None)) top)
  end.

(** The [for] loop of [getEmptyRow] with [n] rows left: rows [n-1] down to 0. *)
Fixpoint getEmptyRow_from (n : nat) (board : GameBoard) (col : Z) : res Z :=
  match n with
  | O => Ret (-1)
  | S n' =>
      v ← readCell board (Z.of_nat n') col;
      if is_null v then Ret (Z.of_nat n') else getEmptyRow_from n' board col
  end.

Definition getEmptyRow (board : GameBoard) (col : Z) : res Z :=
  getEmptyRow_from 6 board col.

Definition otherPlayer (p : Player) : Player :=
  if decide (p = red) then yellow else red.

Definition placeDisc (fuel : nat) (state : GameState) (col : Z)
    : res GameState :=
  if decide (result state ≠ continue) then Ret state
  else
    let nextBoard := (λ row : list Cell, row) <$> gameBoard state in
    row ← getEmptyRow nextBoard col;
    if decide (row = -1) then Ret state
    else
      nextBoard ← writeCell nextBoard row col (Some (currentPlayer state));
      winning ← isWinningMove fuel
                  (mkGameState (result state) nextBoard (currentPlayer state)
                     (winningDiscs state))
                  row col;
      match winning with
      | Some discs =>
          Ret (mkGameState win nextBoard (currentPlayer state) (Some discs))
      | None =>
          full ← isBoardFull nextBoard;
          if (full : bool)
          then Ret (mkGameState draw nextBoard (currentPlayer state) None)
          else Ret (mkGameState continue nextBoard
                      (otherPlayer (currentPlayer state)) None)
      end.

(** [getInitialState] of the tests, which is also the initial state of the
    hook [useGameBoard]. *)
Definition getInitialState : GameState :=
  mkGameState continue
    (replicate (Z.to_nat ROWS) (replicate (Z.to_nat COLUMNS) (None : Cell)))
    red None.

(** Feeding a sequence of columns to [placeDisc], as the tests do. *)
Fixpoint playAll (fuel : nat) (state : GameState) (cols : list Z)
    : res GameState :=
  match cols with
  | [] => Ret state
  | col :: cols' => s ← placeDisc fuel state col; playAll fuel s cols'
  end.

(** ** Vocabulary of the properties *)

(** The board has ROWS rows of COLUMNS cells. *)
Definition wf_board (board : GameBoard) : Prop :=
  length board = Z.to_nat ROWS ∧
  Forall (λ cells : list Cell, length cells = Z.to_nat COLUMNS) board.

(** What is at row [r], column [c]: [None] where the board has no cell. *)
Definition cellAt (board : GameBoard) (r c : Z) : option Cell :=
  match js_index board r with
  | None => None
  | Some cells => js_index cells c
  end.

Definition emptyAt (board : GameBoard) (r c : Z) : Prop :=
  cellAt board r c = Some None.

Definition occupiedAt (board : GameBoard) (r c : Z) : Prop :=
  match cellAt board r c with
  | Some (Some _) => True
  | _ => False
  end.

#[global] Instance occupiedAt_dec board r c : Decision (occupiedAt board r c).
Proof. unfold occupiedAt. destruct (cellAt board r c) as [[?|]|]; apply _. Defined.

(** The board after a disc of [p] is put at row [r], column [c]. *)
Definition dropDisc (board : GameBoard) (r c : Z) (p : Player) : GameBoard :=
  match js_index board r with
  | None => board
  | Some cells => js_assign board r (js_assign cells c (Some p))
  end.

(** A state that still takes moves, and a move that is taken. *)
Definition columnHasEmpty (board : GameBoard) (col : Z) : Prop :=
  ∃ r, 0 ≤ r < ROWS ∧ emptyAt board r col.

Definition columnFull (board : GameBoard) (col : Z) : Prop :=
  ∀ r, 0 ≤ r < ROWS → ¬ emptyAt board r col.

(** [row] is the highest row index with an empty cell in column [col]. *)
Definition lowestEmpty (board : GameBoard) (col row : Z) : Prop :=
  emptyAt board row col ∧ ∀ r, emptyAt board r col → r ≤ row.

(** The number of discs in a column. *)
Definition discsInColumn (board : GameBoard) (col : Z) : Z :=
  Z.of_nat (length (filter (λ r, occupiedAt board r col) (seqZ 0 ROWS))).

(** No empty cell below an occupied one. *)
Definition gravityColumn (board : GameBoard) (c : Z) : Prop :=
  ∀ r r', occupiedAt board r c → r < r' < ROWS → occupiedAt board r' c.

Definition gravityConsistent (board : GameBoard) : Prop :=
  ∀ c, gravityColumn board c.

(** The top row has no empty cell. *)
Definition topRowFull (board : GameBoard) : Prop :=
  ∀ c, 0 ≤ c < COLUMNS → ¬ emptyAt board 0 c.

(** *** Runs along an axis *)

(** The four axes, in the order [isWinningMove] tries them. *)
Definition axes : list (Z * Z) := [(0, 1); (1, 0); (1, 1); (1, -1)].

(** The cell [k] steps from [(r0, c0)] along direction [d]. *)
Definition stepTo (r0 c0 : Z) (d : Z * Z) (k : Z) : Coord :=
  (r0 + k * d.1, c0 + k * d.2).

(** Cell [rc] is on the board and holds a disc of [p]. *)
Definition holds (board : GameBoard) (p : Player) (rc : Coord) : bool :=
  bool_decide (0 ≤ rc.1 < ROWS) && bool_decide (0 ≤ rc.2 < COLUMNS) &&
  is_player (cellAt board rc.1 rc.2) p.

(** The steps strictly after 0 up to [k] (down to [k] when [k] is negative). *)
Definition stepsTo (k : Z) : list Z :=
  if decide (0 ≤ k) then seqZ 1 k else seqZ k (- k).

(** Every cell from the first step to step [k] holds a disc of [p]. *)
Definition reaches (board : GameBoard) (p : Player) (r0 c0 : Z) (d : Z * Z)
    (k : Z) : bool :=
  forallb (λ j, holds board p (stepTo r0 c0 d j)) (stepsTo k).

(** The contiguous run of [p]'s discs through [(r0, c0)] along axis [d]: the
    cell itself and the cells reached from it in both directions.  No cell
    of the board is more than 6 steps from another. *)
Definition axisRun (board : GameBoard) (p : Player) (r0 c0 : Z) (d : Z * Z)
    : list Coord :=
  stepTo r0 c0 d <$>
    filter (λ k, reaches board p r0 c0 d k = true) (seqZ (-6) 13).

Definition runLength (board : GameBoard) (p : Player) (r0 c0 : Z) (d : Z * Z)
    : Z :=
  Z.of_nat (length (axisRun board p r0 c0 d)).

(** [d] is the first axis, in the order of [axes], with a run of 4 or more. *)
Definition firstWinningAxis (board : GameBoard) (p : Player) (r0 c0 : Z)
    (d : Z * Z) : Prop :=
  ∃ i : nat, axes !! i = Some d ∧ 4 ≤ runLength board p r0 c0 d ∧
    ∀ (j : nat) d', axes !! j = Some d' → (j < i)%nat →
      runLength board p r0 c0 d' < 4.

(** *** Reachable states *)

Inductive reachable : GameState → Prop :=
| reachable_init : reachable getInitialState
| reachable_step fuel state col state' :
    reachable state →
    placeDisc fuel state col = Ret state' →
    reachable state'.

(** The loop of [countCells] needs one round per cell of the longest line of
    the board and one more to leave. *)
Definition enoughFuel (fuel : nat) : Prop := (7 ≤ fuel)%nat.

(** [rc] is joined to [(r0, c0)] along [d] by discs of [p] only. *)
Definition inRun (board : GameBoard) (p : Player) (r0 c0 : Z) (d : Z * Z)
    (rc : Coord) : Prop :=
  ∃ k, rc = stepTo r0 c0 d k ∧
    ∀ j, 0 < j ≤ k ∨ k ≤ j < 0 → holds board p (stepTo r0 c0 d j) = true.

(** The rounds the loop can still make from [(r, c)]. *)
Definition roundsLeft (r c : Z) (d : Z * Z) : Z :=
  if decide (0 < d.2) then COLUMNS - c
  else if decide (d.2 < 0) then c + 1
  else if decide (0 < d.1) then ROWS - r
  else r + 1.

(** ** Sample states *)

Definition emptyRow : list Cell := replicate 7 None.

(** Red to move with three red discs in a row at the bottom: the position
    after the columns 0, 0, 1, 1, 2, 2. *)
Definition threeInARow : GameState :=
  mkGameState continue
    [ emptyRow; emptyRow; emptyRow; emptyRow;
      [Some yellow; Some yellow; Some yellow; None; None; None; None];
      [Some red; Some red; Some red; None; None; None; None] ]
    red None.

(** The position after the columns 0, 0, 1, 1, 2, 2, 3: red has won. *)
Definition horizontalWin : GameState :=
  mkGameState win
    [ emptyRow; emptyRow; emptyRow; emptyRow;
      [Some yellow; Some yellow; Some yellow; None; None; None; None];
      [Some red; Some red; Some red; Some red; None; None; None] ]
    red (Some [(5, 3); (5, 2); (5, 1); (5, 0)]).

(** Red to move; a red disc in column 3 completes the bottom row
    (columns 0 to 3) and the diagonal from (2, 0) down to (5, 3). *)
Definition doubleThreat : GameState :=
  mkGameState continue
    [ emptyRow; emptyRow;
      [Some red; None; None; None; None; None; None];
      [Some yellow; Some red; None; None; None; None; None];
      [Some yellow; Some yellow; Some red; None; None; None; None];
      [Some red; Some red; Some red; None; Some yellow; Some yellow;
       Some yellow] ]
    red None.

(** One empty cell left, at the top of column 6; red to move. *)
Definition lastCell : GameState :=
  mkGameState continue
    [ [Some yellow; Some yellow; Some yellow; Some red; Some yellow;
       Some yellow; None];
      [Some red; Some red; Some red; Some yellow; Some red; Some red;
       Some red];
      [Some yellow; Some yellow; Some yellow; Some red; Some yellow;
       Some yellow; Some yellow];
      [Some red; Some red; Some red; Some yellow; Some red; Some red;
       Some red];
      [Some yellow; Some yellow; Some yellow; Some red; Some yellow;
       Some yellow; Some yellow];
      [Some red; Some red; Some red; Some yellow; Some red; Some red;
       Some red] ]
    red None.

(** ** Vocabulary of the further properties *)

(** The cells of the board, row by row. *)
Definition allCells : list Coord :=
  concat ((λ r, (λ c, (r, c)) <$> seqZ 0 COLUMNS) <$> seqZ 0 ROWS).

(** The number of discs of [p] on the board. *)
Definition countDiscs (board : GameBoard) (p : Player) : Z :=
  Z.of_nat (length (filter (λ rc : Coord,
                              cellAt board rc.1 rc.2 = Some (Some p))
                      allCells)).

(** Four cells in a line from [(r, c)] along [d], all with a disc of [p]. *)
Definition fourInARow (board : GameBoard) (p : Player) (r c : Z) (d : Z * Z)
    : bool :=
  forallb (λ k, holds board p (stepTo r c d k)) (seqZ 0 4).

(** By how much red is ahead in discs: by one after a move of red, by none
    after a move of yellow. *)
Definition redLead (state : GameState) : Z :=
  match result state, currentPlayer state with
  | continue, red => 0
  | continue, yellow => 1
  | _, red => 1
  | _, yellow => 0
  end.

(** The position at the end of the drawn game of the tests: yellow made the
    last move. *)
Definition drawnGame : GameState :=
  mkGameState draw
    [ [Some yellow; Some yellow; Some yellow; Some red; Some yellow;
       Some yellow; Some yellow];
      [Some red; Some red; Some red; Some yellow; Some red; Some red;
       Some red];
      [Some yellow; Some yellow; Some yellow; Some red; Some yellow;
       Some yellow; Some yellow];
      [Some red; Some red; Some red; Some yellow; Some red; Some red;
       Some red];
      [Some yellow; Some yellow; Some yellow; Some red; Some yellow;
       Some yellow; Some yellow];
      [Some red; Some red; Some red; Some yellow; Some red; Some red;
       Some red] ]
    yellow None.

(** The columns of that game. *)
Definition drawnGameColumns : list Z :=
  [0; 0; 0; 0; 0; 0; 1; 1; 1; 1; 1; 1; 2; 2; 2; 2; 2; 2; 4; 4; 4; 4; 4; 4;
   5; 5; 5; 5; 5; 5; 6; 6; 6; 6; 6; 3; 3; 3; 3; 3; 3; 6].

(** *** The hook [useGameBoard] *)

(** What the hook is asked to do: [onPressCell(col)] or [resetGame()]. *)
Inductive HookEvent :=
| PressCell (col : Z)
| ResetGame.

(** The state the handler passes to [setState]. *)
Definition hookStep (fuel : nat) (state : GameState) (ev : HookEvent)
    : res GameState :=
  match ev with
  | PressCell col => placeDisc fuel state col
  | ResetGame => Ret getInitialState
  end.

(** A series of events, each handled in the render that follows the one
    before. *)
Fixpoint hookRun (fuel : nat) (state : GameState) (evs : list HookEvent)
    : res GameState :=
  match evs with
  | [] => Ret state
  | ev :: evs' => s ← hookStep fuel state ev; hookRun fuel s evs'
  end.

(** ** Arrays and boards *)

Section arrays.
Context {A : Type}.
Implicit Types (arr : list A) (i j : Z) (v : A).

Lemma js_index_Some arr i v :
  js_index arr i = Some v ↔ 0 ≤ i ∧ arr !! Z.to_nat i = Some v.
Proof. unfold js_index. case_decide; [tauto|]. split; [done|tauto]. Qed.

Lemma js_index_None arr i :
  js_index arr i = None ↔ i < 0 ∨ Z.of_nat (length arr) ≤ i.
Proof.
  unfold js_index. case_decide.
  - rewrite lookup_ge_None. lia.
  - split; [lia | done].
Qed.

Lemma js_index_is_Some arr i :
  is_Some (js_index arr i) ↔ 0 ≤ i < Z.of_nat (length arr).
Proof.
  rewrite <- not_eq_None_Some, js_index_None. lia.
Qed.

Lemma length_js_assign arr i v : length (js_assign arr i v) = length arr.
Proof. unfold js_assign. case_decide; [apply length_insert | done]. Qed.

Lemma js_index_assign_eq arr i v :
  is_Some (js_index arr i) → js_index (js_assign arr i v) i = Some v.
Proof.
  rewrite js_index_is_Some. intros Hi. unfold js_index, js_assign.
  rewrite decide_True by lia. rewrite decide_True by lia.
  apply list_lookup_insert_eq. lia.
Qed.

Lemma js_index_assign_ne arr i j v :
  i ≠ j → js_index (js_assign arr i v) j = js_index arr j.
Proof.
  intros Hne. unfold js_index, js_assign.
  destruct (decide (0 ≤ j)), (decide (0 ≤ i)); try done.
  apply list_lookup_insert_ne. lia.
Qed.
End arrays.

Lemma wf_board_row board r :
  wf_board board → 0 ≤ r < ROWS →
  ∃ cells, js_index board r = Some cells ∧ length cells = Z.to_nat COLUMNS.
Proof.
  intros [Hlen Hrows] Hr.
  destruct (js_index board r) as [cells|] eqn:E.
  - exists cells. split; [done|].
    apply js_index_Some in E as [_ E].
    by eapply (Forall_lookup_1 _ _ _ _ Hrows E).
  - apply js_index_None in E. unfold ROWS in *. lia.
Qed.

Lemma cellAt_Some_range board r c x :
  wf_board board → cellAt board r c = Some x →
  0 ≤ r < ROWS ∧ 0 ≤ c < COLUMNS.
Proof.
  intros Hwf. unfold cellAt.
  destruct (js_index board r) as [cells|] eqn:E; [|done].
  intros Hc.
  assert (0 ≤ r < ROWS) as Hr.
  { destruct Hwf as [Hlen _]. pose proof (proj1 (js_index_is_Some board r)) as H.
    rewrite E in H. specialize (H (mk_is_Some _ _ eq_refl)). lia. }
  split; [done|].
  destruct (wf_board_row board r Hwf Hr) as (cells' & E' & Hlen').
  simplify_eq.
  pose proof (proj1 (js_index_is_Some cells c)) as H.
  rewrite Hc in H. specialize (H (mk_is_Some _ _ eq_refl)). lia.
Qed.

Lemma cellAt_in_range board r c :
  wf_board board → 0 ≤ r < ROWS → 0 ≤ c < COLUMNS →
  is_Some (cellAt board r c).
Proof.
  intros Hwf Hr Hc. unfold cellAt.
  destruct (wf_board_row board r Hwf Hr) as (cells & -> & Hlen).
  apply js_index_is_Some. lia.
Qed.

Lemma readCell_cellAt board r c :
  is_Some (js_index board r) → readCell board r c = Ret (cellAt board r c).
Proof. intros [cells E]. unfold readCell, cellAt. by rewrite E. Qed.

Lemma readCell_wf board r c :
  wf_board board → 0 ≤ r < ROWS → readCell board r c = Ret (cellAt board r c).
Proof.
  intros Hwf Hr. apply readCell_cellAt.
  destruct (wf_board_row board r Hwf Hr) as (cells & -> & _). done.
Qed.

Lemma readCell_Ret board r c v :
  readCell board r c = Ret v → v = cellAt board r c.
Proof.
  unfold readCell, cellAt. destruct (js_index board r); naive_solver.
Qed.

Lemma wf_dropDisc board r c p :
  wf_board board → wf_board (dropDisc board r c p).
Proof.
  intros [Hlen Hrows]. unfold dropDisc.
  destruct (js_index board r) as [cells|] eqn:E; [|done].
  split; [by rewrite length_js_assign|].
  unfold js_assign at 1. case_decide; [|done].
  apply Forall_insert; [done|].
  rewrite length_js_assign.
  apply js_index_Some in E as [_ E].
  by eapply (Forall_lookup_1 _ _ _ _ Hrows E).
Qed.

Lemma cellAt_dropDisc_eq board r c p :
  is_Some (cellAt board r c) → cellAt (dropDisc board r c p) r c = Some (Some p).
Proof.
  unfold cellAt, dropDisc.
  destruct (js_index board r) as [cells|] eqn:E; [|by intros []].
  intros Hc. rewrite js_index_assign_eq by (by rewrite E).
  by apply js_index_assign_eq.
Qed.

Lemma cellAt_dropDisc_ne board r c p r' c' :
  (r', c') ≠ (r, c) → cellAt (dropDisc board r c p) r' c' = cellAt board r' c'.
Proof.
  intros Hne. unfold cellAt, dropDisc.
  destruct (js_index board r) as [cells|] eqn:E; [|done].
  destruct (decide (r = r')) as [<-|Hr].
  - rewrite js_index_assign_eq by (by rewrite E). rewrite E.
    apply js_index_assign_ne. congruence.
  - by rewrite js_index_assign_ne.
Qed.

Lemma writeCell_dropDisc board r c p :
  is_Some (js_index board r) →
  writeCell board r c (Some p) = Ret (dropDisc board r c p).
Proof. intros [cells E]. unfold writeCell, dropDisc. by rewrite E. Qed.

(** ** [getEmptyRow] *)

Lemma getEmptyRow_from_spec board col (n : nat) :
  wf_board board → Z.of_nat n ≤ ROWS →
  ∃ row, getEmptyRow_from n board col = Ret row ∧
    ((row = -1 ∧ ∀ r, 0 ≤ r < Z.of_nat n → ¬ emptyAt board r col) ∨
     (0 ≤ row < Z.of_nat n ∧ emptyAt board row col ∧
      ∀ r, row < r < Z.of_nat n → ¬ emptyAt board r col)).
Proof.
  intros Hwf. induction n as [|n IH]; intros Hn.
  - exists (-1). split; [done|]. left. split; [done|]. lia.
  - destruct IH as (row & Hrow & Hspec); [lia|].
    cbn [getEmptyRow_from]. rewrite readCell_wf by (done || lia). cbn.
    unfold is_null. case_bool_decide as Hnull.
    + exists (Z.of_nat n). split; [done|]. right.
      split; [lia|]. split; [done|]. lia.
    + exists row. split; [done|].
      destruct Hspec as [[-> Hfull]|(Hr & Hempty & Habove)].
      * left. split; [done|]. intros r Hr.
        destruct (decide (r = Z.of_nat n)) as [->|]; [done|]. apply Hfull. lia.
      * right. split; [lia|]. split; [done|]. intros r Hr'.
        destruct (decide (r = Z.of_nat n)) as [->|]; [done|]. apply Habove. lia.
Qed.

Lemma getEmptyRow_spec board col :
  wf_board board →
  ∃ row, getEmptyRow board col = Ret row ∧
    ((row = -1 ∧ columnFull board col) ∨
     (0 ≤ row < ROWS ∧ 0 ≤ col < COLUMNS ∧ lowestEmpty board col row)).
Proof.
  intros Hwf.
  destruct (getEmptyRow_from_spec board col 6 Hwf) as (row & Hrow & Hspec);
    [done|].
  exists row. split; [done|].
  destruct Hspec as [[-> Hfull]|(Hr & Hempty & Habove)].
  - left. split; [done|]. intros r Hr. apply Hfull. unfold ROWS in Hr. lia.
  - right. split; [unfold ROWS; lia|].
    split; [by eapply cellAt_Some_range|].
    split; [done|]. intros r Hr'.
    destruct (Z_le_gt_dec r row) as [|Hgt]; [done|].
    pose proof (cellAt_Some_range _ _ _ _ Hwf Hr') as [Hrange _].
    exfalso. apply (Habove r); [unfold ROWS in Hrange; lia | done].
Qed.

(** Where [getEmptyRow] finds a row, the cell it will be assigned is an
    element of the arrays: the assignment never grows them. *)
Lemma getEmptyRow_null board col row :
  wf_board board → getEmptyRow board col = Ret row → row ≠ -1 →
  cellAt board row col = Some None.
Proof.
  intros Hwf Hrow Hne.
  destruct (getEmptyRow_spec board col Hwf) as (row' & Hrow' & Hspec).
  rewrite Hrow in Hrow'. simplify_eq.
  destruct Hspec as [[-> _]|(_ & _ & H & _)]; done.
Qed.

Lemma lowestEmpty_unique board col row row' :
  lowestEmpty board col row → lowestEmpty board col row' → row = row'.
Proof.
  intros [H1 H2] [H1' H2']. specialize (H2 _ H1'). specialize (H2' _ H1). lia.
Qed.

Lemma columnHasEmpty_not_full board col :
  columnHasEmpty board col → ¬ columnFull board col.
Proof. intros (r & Hr & Hempty) Hfull. by apply (Hfull r). Qed.

(** ** The loop of [countCells] *)

Section loop.
Variable state : GameState.
Hypothesis Hwf : wf_board (gameBoard state).

Let board := gameBoard state.
Let p := currentPlayer state.

Lemma countCells_loop_S fuel r c dr dc :
  countCells_loop (S fuel) state r c dr dc =
    if holds board p (r, c)
    then discs ← countCells_loop fuel state (r + dr) (c + dc) dr dc;
         Ret ((r, c) :: discs)
    else Ret [].
Proof.
  cbn [countCells_loop]. unfold holds. cbn [fst snd].
  assert (bool_decide (0 ≤ r) && bool_decide (r < 6) &&
          bool_decide (0 ≤ c) && bool_decide (c < 7)
          = bool_decide (0 ≤ r < ROWS) && bool_decide (0 ≤ c < COLUMNS))
    as ->.
  { unfold ROWS, COLUMNS. repeat case_bool_decide; cbn; try done; lia. }
  case_bool_decide as Hr; cbn [andb]; [|done].
  case_bool_decide as Hc; cbn [andb]; [|done].
  by rewrite readCell_wf.
Qed.

(** What the loop collects: the cells reached from its first cell. *)
Lemma countCells_loop_spec fuel r c d discs :
  d ≠ (0, 0) →
  countCells_loop fuel state r c d.1 d.2 = Ret discs →
  NoDup discs ∧
  ∀ rc, rc ∈ discs ↔
    ∃ i, 0 ≤ i ∧ rc = stepTo r c d i ∧
      ∀ j, 0 ≤ j ≤ i → holds board p (stepTo r c d j) = true.
Proof.
  destruct d as [dr dc]. cbn [fst snd]. intros Hd.
  revert r c discs. induction fuel as [|fuel IH]; intros r c discs; [done|].
  rewrite countCells_loop_S.
  destruct (holds board p (r, c)) eqn:Hh.
  - destruct (countCells_loop fuel state (r + dr) (c + dc) dr dc)
      as [discs'| |] eqn:E; cbn; [|done..].
    intros [= <-]. destruct (IH _ _ _ E) as [Hnd Hin].
    assert (∀ j, stepTo (r + dr) (c + dc) (dr, dc) j
                 = stepTo r c (dr, dc) (j + 1)) as Hshift.
    { intros j. unfold stepTo. cbn. f_equal; lia. }
    split.
    + apply NoDup_cons. split; [|done].
      rewrite Hin. intros (i & Hi & Heq & _).
      rewrite Hshift in Heq. unfold stepTo in Heq. cbn in Heq.
      apply Hd. simplify_eq. f_equal; nia.
    + intros rc. rewrite elem_of_cons, Hin. split.
      * intros [->|(i & Hi & -> & Hall)].
        -- exists 0. split; [done|]. split.
           ++ unfold stepTo. cbn. f_equal; lia.
           ++ intros j Hj. replace j with 0 by lia.
              unfold stepTo. cbn. rewrite <- Hh. do 2 f_equal; lia.
        -- exists (i + 1). split; [lia|]. split; [apply Hshift|].
           intros j Hj. destruct (decide (j = 0)) as [->|].
           ++ unfold stepTo. cbn. rewrite <- Hh. do 2 f_equal; lia.
           ++ replace j with (j - 1 + 1) by lia. rewrite <- Hshift.
              apply Hall. lia.
      * intros (i & Hi & -> & Hall).
        destruct (decide (i = 0)) as [->|].
        -- left. unfold stepTo. cbn. f_equal; lia.
        -- right. exists (i - 1). split; [lia|]. split.
           ++ rewrite Hshift. f_equal. lia.
           ++ intros j Hj. rewrite Hshift. apply Hall. lia.
  - intros [= <-]. split; [constructor|].
    intros rc. rewrite elem_of_nil. split; [done|].
    intros (i & Hi & _ & Hall). specialize (Hall 0).
    unfold stepTo in Hall. cbn in Hall.
    replace (r + 0 * dr) with r in Hall by lia.
    replace (c + 0 * dc) with c in Hall by lia.
    rewrite Hall in Hh by lia. done.
Qed.

Lemma holds_range rc : holds board p rc = true →
  0 ≤ rc.1 < ROWS ∧ 0 ≤ rc.2 < COLUMNS.
Proof.
  unfold holds. rewrite !andb_true_iff, !bool_decide_eq_true. tauto.
Qed.

Lemma countCells_loop_terminates fuel r c d :
  d ≠ (0, 0) → 0 < Z.of_nat fuel → roundsLeft r c d < Z.of_nat fuel →
  ∃ discs, countCells_loop fuel state r c d.1 d.2 = Ret discs.
Proof.
  destruct d as [dr dc]. cbn [fst snd]. intros Hd.
  revert r c. induction fuel as [|fuel IH]; intros r c Hpos Hleft; [lia|].
  rewrite countCells_loop_S.
  destruct (holds board p (r, c)) eqn:Hh; [|by eexists].
  apply holds_range in Hh. cbn in Hh.
  destruct (IH (r + dr) (c + dc)) as [discs ->]; [| |by eexists].
  all: revert Hleft; unfold roundsLeft, ROWS, COLUMNS in *; cbn [fst snd].
  all: repeat case_decide; try lia.
  all: destruct (decide (dr = 0)); [exfalso; apply Hd; f_equal; lia | lia].
Qed.

Lemma countCells_terminates fuel row col d :
  d ≠ (0, 0) → enoughFuel fuel → 0 ≤ row < ROWS → 0 ≤ col < COLUMNS →
  ∃ discs, countCells fuel state row col d.1 d.2 = Ret discs.
Proof.
  intros Hd Hfuel Hrow Hcol. unfold countCells, enoughFuel in *.
  apply countCells_loop_terminates; [done|lia|].
  unfold roundsLeft, ROWS, COLUMNS in *.
  destruct d as [dr dc]. cbn [fst snd].
  repeat case_decide; lia.
Qed.
End loop.

(** ** Runs: what [checkDirection] collects is the contiguous run *)

Lemma stepTo_inj r0 c0 d k k' :
  d ≠ (0, 0) → stepTo r0 c0 d k = stepTo r0 c0 d k' → k = k'.
Proof.
  destruct d as [dr dc]. unfold stepTo. cbn. intros Hd [= Hr Hc].
  destruct (decide (k = k')) as [|Hne]; [done|].
  exfalso. apply Hd. f_equal; nia.
Qed.

Lemma stepTo_0 r0 c0 d : stepTo r0 c0 d 0 = (r0, c0).
Proof. unfold stepTo. f_equal; lia. Qed.

Lemma reaches_spec board p r0 c0 d k :
  reaches board p r0 c0 d k = true ↔
  ∀ j, 0 < j ≤ k ∨ k ≤ j < 0 → holds board p (stepTo r0 c0 d j) = true.
Proof.
  unfold reaches, stepsTo. rewrite forallb_forall. split.
  - intros H j Hj. apply H. apply list_elem_of_In.
    case_decide; apply elem_of_seqZ; lia.
  - intros H j Hj. apply H. apply list_elem_of_In in Hj.
    case_decide; apply elem_of_seqZ in Hj; lia.
Qed.

Section runs.
Variable state : GameState.
Hypothesis Hwf : wf_board (gameBoard state).
Variables (fuel : nat) (r0 c0 : Z).
Hypothesis Hfuel : enoughFuel fuel.
Hypothesis Hr0 : 0 ≤ r0 < ROWS.
Hypothesis Hc0 : 0 ≤ c0 < COLUMNS.

Let board := gameBoard state.
Let p := currentPlayer state.

Lemma inRun_bound d j :
  d ≠ (0, 0) → holds board p (stepTo r0 c0 d j) = true → -6 ≤ j ≤ 6.
Proof.
  destruct d as [dr dc]. intros Hd Hh.
  apply holds_range in Hh. unfold stepTo, ROWS, COLUMNS in *. cbn in Hh.
  destruct (decide (dc = 0)) as [->|Hdc].
  - assert (dr ≠ 0) by congruence. nia.
  - nia.
Qed.

Lemma axisRun_elem d rc :
  d ≠ (0, 0) → rc ∈ axisRun board p r0 c0 d ↔ inRun board p r0 c0 d rc.
Proof.
  intros Hd. unfold axisRun, inRun. rewrite list_elem_of_fmap. split.
  - intros (k & -> & Hk). apply list_elem_of_filter in Hk as [Hk _].
    exists k. split; [done|]. by apply reaches_spec.
  - intros (k & -> & Hk). exists k. split; [done|].
    apply list_elem_of_filter. split; [by apply reaches_spec|].
    apply elem_of_seqZ.
    destruct (decide (k = 0)) as [->|Hne]; [lia|].
    pose proof (inRun_bound d k Hd) as Hb.
    assert (-6 ≤ k ≤ 6); [|lia]. apply Hb, Hk. lia.
Qed.

Lemma NoDup_axisRun d : d ≠ (0, 0) → NoDup (axisRun board p r0 c0 d).
Proof.
  intros Hd. unfold axisRun. apply NoDup_fmap_2_strong.
  - intros k k' _ _. by apply stepTo_inj.
  - apply NoDup_filter, NoDup_seqZ.
Qed.

(** The walk in the direction of [d]. *)
Lemma countCells_fwd d :
  d ≠ (0, 0) →
  ∃ discs, countCells fuel state r0 c0 d.1 d.2 = Ret discs ∧ NoDup discs ∧
    ∀ rc, rc ∈ discs ↔
      ∃ k, 0 < k ∧ rc = stepTo r0 c0 d k ∧
        ∀ j, 0 < j ≤ k → holds board p (stepTo r0 c0 d j) = true.
Proof.
  intros Hd.
  destruct (countCells_terminates state Hwf fuel r0 c0 d) as [discs E];
    [done..|].
  exists discs. split; [done|].
  destruct (countCells_loop_spec state Hwf fuel _ _ d discs Hd E)
    as [Hnd Hin].
  split; [done|]. intros rc. rewrite Hin.
  assert (∀ j, stepTo (r0 + d.1) (c0 + d.2) d j = stepTo r0 c0 d (j + 1))
    as Hshift.
  { intros j. unfold stepTo. f_equal; lia. }
  split.
  - intros (i & Hi & -> & Hall). exists (i + 1).
    split; [lia|]. split; [apply Hshift|].
    intros j Hj. replace j with (j - 1 + 1) by lia. rewrite <- Hshift.
    apply Hall. lia.
  - intros (k & Hk & -> & Hall). exists (k - 1).
    split; [lia|]. split; [rewrite Hshift; f_equal; lia|].
    intros j Hj. rewrite Hshift. apply Hall. lia.
Qed.

(** The walk against the direction of [d]. *)
Lemma countCells_bwd d :
  d ≠ (0, 0) →
  ∃ discs, countCells fuel state r0 c0 (- d.1) (- d.2) = Ret discs ∧
    NoDup discs ∧
    ∀ rc, rc ∈ discs ↔
      ∃ k, k < 0 ∧ rc = stepTo r0 c0 d k ∧
        ∀ j, k ≤ j < 0 → holds board p (stepTo r0 c0 d j) = true.
Proof.
  intros Hd.
  assert ((- d.1, - d.2) ≠ (0, 0)) as Hd'.
  { destruct d as [dr dc]. cbn. intros [= ? ?]. apply Hd. f_equal; lia. }
  destruct (countCells_terminates state Hwf fuel r0 c0 (- d.1, - d.2))
    as [discs E]; [done..|].
  exists discs. split; [done|].
  destruct (countCells_loop_spec state Hwf fuel _ _ (- d.1, - d.2) discs
              Hd' E) as [Hnd Hin].
  split; [done|]. intros rc. rewrite Hin.
  assert (∀ j, stepTo (r0 + - d.1) (c0 + - d.2) (- d.1, - d.2) j
               = stepTo r0 c0 d (- (j + 1))) as Hshift.
  { intros j. unfold stepTo. cbn. f_equal; lia. }
  split.
  - intros (i & Hi & -> & Hall). exists (- (i + 1)).
    split; [lia|]. split; [apply Hshift|].
    intros j Hj. replace j with (- (- j - 1 + 1)) by lia. rewrite <- Hshift.
    apply Hall. lia.
  - intros (k & Hk & -> & Hall). exists (- k - 1).
    split; [lia|]. split; [rewrite Hshift; f_equal; lia|].
    intros j Hj. rewrite Hshift. apply Hall. lia.
Qed.

(** [checkDirection] returns the run along [d] when it has four cells. *)
Lemma checkDirection_spec d :
  d ≠ (0, 0) →
  ∃ discs, discs ≡ₚ axisRun board p r0 c0 d ∧
    checkDirection fuel state r0 c0 d.1 d.2 =
      Ret (if decide (4 ≤ runLength board p r0 c0 d) then Some discs
           else None).
Proof.
  intros Hd.
  destruct (countCells_fwd d Hd) as (fwd & Efwd & Hndf & Hinf).
  destruct (countCells_bwd d Hd) as (bwd & Ebwd & Hndb & Hinb).
  assert ((r0, c0) :: fwd ++ bwd ≡ₚ axisRun board p r0 c0 d) as Hperm.
  { apply NoDup_Permutation.
    - apply NoDup_cons. split.
      + rewrite elem_of_app, Hinf, Hinb.
        intros [(k & Hk & Heq & _)|(k & Hk & Heq & _)];
          rewrite <- (stepTo_0 r0 c0 d) in Heq;
          apply stepTo_inj in Heq; (done || lia).
      + apply NoDup_app. split; [done|]. split; [|done].
        intros rc. rewrite Hinf, Hinb.
        intros (k & Hk & -> & _) (k' & Hk' & Heq & _).
        apply stepTo_inj in Heq; (done || lia).
    - by apply NoDup_axisRun.
    - intros rc. rewrite (axisRun_elem d rc Hd).
      rewrite elem_of_cons, elem_of_app, Hinf, Hinb. unfold inRun. split.
      + intros [->|[(k & Hk & -> & Hall)|(k & Hk & -> & Hall)]].
        * exists 0. split; [by rewrite stepTo_0|]. lia.
        * exists k. split; [done|]. intros j Hj. apply Hall. lia.
        * exists k. split; [done|]. intros j Hj. apply Hall. lia.
      + intros (k & -> & Hall).
        destruct (Z.lt_trichotomy k 0) as [Hk|[->|Hk]].
        * right. right. exists k. split; [done|]. split; [done|].
          intros j Hj. apply Hall. lia.
        * left. apply stepTo_0.
        * right. left. exists k. split; [done|]. split; [done|].
          intros j Hj. apply Hall. lia. }
  exists ((r0, c0) :: fwd ++ bwd). split; [done|].
  unfold checkDirection. rewrite Efwd. cbn. rewrite Ebwd. cbn.
  apply Permutation_length in Hperm. unfold runLength.
  cbn [length] in Hperm |- *.
  unfold Coord in *.
  case_bool_decide; case_decide; try done; exfalso; lia.
Qed.
End runs.

(** ** [isWinningMove], [isBoardFull] and the shape of a move *)

Lemma isWinningMove_spec state fuel r0 c0 :
  wf_board (gameBoard state) → enoughFuel fuel →
  0 ≤ r0 < ROWS → 0 ≤ c0 < COLUMNS →
  let board := gameBoard state in
  let p := currentPlayer state in
  (∃ d discs, firstWinningAxis board p r0 c0 d ∧
     discs ≡ₚ axisRun board p r0 c0 d ∧
     isWinningMove fuel state r0 c0 = Ret (Some discs)) ∨
  ((∀ d, d ∈ axes → runLength board p r0 c0 d < 4) ∧
   isWinningMove fuel state r0 c0 = Ret None).
Proof.
  intros Hwf Hfuel Hr0 Hc0 board p.
  destruct (checkDirection_spec state Hwf fuel r0 c0 Hfuel Hr0 Hc0 (0, 1))
    as (l1 & P1 & E1); [done|].
  destruct (checkDirection_spec state Hwf fuel r0 c0 Hfuel Hr0 Hc0 (1, 0))
    as (l2 & P2 & E2); [done|].
  destruct (checkDirection_spec state Hwf fuel r0 c0 Hfuel Hr0 Hc0 (1, 1))
    as (l3 & P3 & E3); [done|].
  destruct (checkDirection_spec state Hwf fuel r0 c0 Hfuel Hr0 Hc0 (1, -1))
    as (l4 & P4 & E4); [done|].
  cbn [fst snd] in E1, E2, E3, E4. fold board p in P1, P2, P3, P4, E1, E2, E3, E4.
  unfold isWinningMove, orElse.
  rewrite E1. destruct (decide (4 ≤ runLength board p r0 c0 (0, 1))) as [H1|H1]; cbn.
  { left. exists (0, 1), l1. split; [|by split].
    exists 0%nat. split; [done|]. split; [done|]. intros j d' _ Hj. lia. }
  rewrite E2. destruct (decide (4 ≤ runLength board p r0 c0 (1, 0))) as [H2|H2]; cbn.
  { left. exists (1, 0), l2. split; [|by split].
    exists 1%nat. split; [done|]. split; [done|]. intros [|j] d' Hd' Hj; [|lia].
    cbn in Hd'. simplify_eq. lia. }
  rewrite E3. destruct (decide (4 ≤ runLength board p r0 c0 (1, 1))) as [H3|H3]; cbn.
  { left. exists (1, 1), l3. split; [|by split].
    exists 2%nat. split; [done|]. split; [done|]. intros [|[|j]] d' Hd' Hj; [..|lia].
    all: cbn in Hd'; simplify_eq; lia. }
  rewrite E4. destruct (decide (4 ≤ runLength board p r0 c0 (1, -1))) as [H4|H4]; cbn.
  { left. exists (1, -1), l4. split; [|by split].
    exists 3%nat. split; [done|]. split; [done|]. intros [|[|[|j]]] d' Hd' Hj; [..|lia].
    all: cbn in Hd'; simplify_eq; lia. }
  right. split; [|done]. intros d Hd. unfold axes in Hd.
  rewrite !elem_of_cons, elem_of_nil in Hd.
  destruct Hd as [->|[->|[->|[->|[]]]]]; lia.
Qed.

Lemma isBoardFull_spec board :
  wf_board board →
  (isBoardFull board = Ret true ∧ topRowFull board) ∨
  (isBoardFull board = Ret false ∧ ¬ topRowFull board).
Proof.
  intros Hwf.
  destruct (wf_board_row board 0 Hwf) as (top & Etop & Hlen); [done|].
  unfold isBoardFull. rewrite Etop.
  assert (∀ c, cellAt board 0 c = js_index top c) as Hcell.
  { intros c. unfold cellAt. by rewrite Etop. }
  destruct (forallb _ top) eqn:E.
  - left. split; [done|]. intros c Hc Hempty.
    unfold emptyAt in Hempty. rewrite Hcell in Hempty.
    apply js_index_Some in Hempty as [_ Hlook].
    apply list_elem_of_lookup_2, list_elem_of_In in Hlook.
    rewrite forallb_forall in E. apply E in Hlook.
    by apply bool_decide_eq_true in Hlook.
  - right. split; [done|]. intros Hfull.
    apply not_true_iff_false in E. apply E.
    apply forallb_forall. intros cell Hin.
    apply list_elem_of_In, list_elem_of_lookup_1 in Hin as [i Hi].
    apply bool_decide_eq_true. intros ->.
    pose proof (lookup_lt_Some _ _ _ Hi) as Hlt.
    apply (Hfull (Z.of_nat i)); [unfold COLUMNS in *; lia|].
    unfold emptyAt. rewrite Hcell. apply js_index_Some.
    split; [lia|]. by rewrite Nat2Z.id.
Qed.

Lemma columnHasEmpty_lowest board col :
  wf_board board → columnHasEmpty board col →
  ∃ row, 0 ≤ row < ROWS ∧ 0 ≤ col < COLUMNS ∧ lowestEmpty board col row ∧
    getEmptyRow board col = Ret row.
Proof.
  intros Hwf Hhas.
  destruct (getEmptyRow_spec board col Hwf) as (row & Hrow & Hspec).
  destruct Hspec as [[_ Hfull]|(Hr & Hc & Hlow)].
  - by apply columnHasEmpty_not_full in Hhas.
  - by exists row.
Qed.

(** The three ways a move that is taken can end. *)
Lemma placeDisc_accepted fuel state col row :
  wf_board (gameBoard state) → enoughFuel fuel →
  result state = continue → lowestEmpty (gameBoard state) col row →
  let p := currentPlayer state in
  let board' := dropDisc (gameBoard state) row col p in
  (∃ d discs, firstWinningAxis board' p row col d ∧
     discs ≡ₚ axisRun board' p row col d ∧
     placeDisc fuel state col = Ret (mkGameState win board' p (Some discs))) ∨
  ((∀ d, d ∈ axes → runLength board' p row col d < 4) ∧
   topRowFull board' ∧
   placeDisc fuel state col = Ret (mkGameState draw board' p None)) ∨
  ((∀ d, d ∈ axes → runLength board' p row col d < 4) ∧
   ¬ topRowFull board' ∧
   placeDisc fuel state col =
     Ret (mkGameState continue board' (otherPlayer p) None)).
Proof.
  intros Hwf Hfuel Hres Hlow p board'.
  destruct (columnHasEmpty_lowest (gameBoard state) col Hwf)
    as (row' & Hr & Hc & Hlow' & Hget).
  { destruct Hlow as [Hempty _].
    pose proof (cellAt_Some_range _ _ _ _ Hwf Hempty) as [? ?]. by exists row. }
  assert (row' = row) as -> by by eapply lowestEmpty_unique.
  assert (wf_board board') as Hwf' by by apply wf_dropDisc.
  unfold placeDisc. rewrite decide_False by (by rewrite Hres; intros ?).
  rewrite list_fmap_id. rewrite Hget. cbn.
  rewrite decide_False by lia.
  rewrite writeCell_dropDisc.
  2: { destruct (wf_board_row _ row Hwf Hr) as (cells & -> & _). done. }
  cbn. fold p board'.
  set (state' := mkGameState (result state) board' p (winningDiscs state)).
  destruct (isWinningMove_spec state' fuel row col Hwf' Hfuel Hr Hc)
    as [(d & discs & Hfirst & Hperm & ->)|[Hnone ->]]; cbn.
  { left. by exists d, discs. }
  right.
  destruct (isBoardFull_spec board' Hwf') as [[-> Hfull]|[-> Hfull]]; cbn.
  - by left.
  - by right.
Qed.

(** If [placeDisc] returns, it returns its argument or one of three new
    states. *)
Lemma placeDisc_shape fuel state col state' :
  placeDisc fuel state col = Ret state' →
  state' = state ∨
  (∃ board discs,
     state' = mkGameState win board (currentPlayer state) (Some discs)) ∨
  (∃ board, state' = mkGameState draw board (currentPlayer state) None) ∨
  (∃ board, state' = mkGameState continue board
                       (otherPlayer (currentPlayer state)) None).
Proof.
  unfold placeDisc. case_decide; [naive_solver|].
  destruct (getEmptyRow _ col) as [row| |]; cbn; [|done..].
  case_decide; [naive_solver|].
  destruct (writeCell _ row col _) as [board| |]; cbn; [|done..].
  destruct (isWinningMove _ _ row col) as [[discs|]| |]; cbn; [| |done..].
  - intros [= <-]. right. left. by eexists _, _.
  - destruct (isBoardFull board) as [[|]| |]; cbn; [| |done..].
    + intros [= <-]. right. right. left. by eexists.
    + intros [= <-]. right. right. right. by eexists.
Qed.

(** ** More fuel does not change a result *)

Lemma countCells_loop_mono fuel fuel' state r c dr dc discs :
  (fuel ≤ fuel')%nat →
  countCells_loop fuel state r c dr dc = Ret discs →
  countCells_loop fuel' state r c dr dc = Ret discs.
Proof.
  revert fuel' r c discs.
  induction fuel as [|fuel IH]; intros fuel' r c discs Hle; [done|].
  destruct fuel' as [|fuel']; [lia|]. cbn [countCells_loop].
  destruct (_ && _); [|done].
  destruct (readCell _ r c) as [v| |]; cbn; [|done..].
  destruct (is_player v _); [|done].
  destruct (countCells_loop fuel state _ _ dr dc) as [l| |] eqn:E; cbn;
    [|done..].
  intros [= <-]. by rewrite (IH fuel' _ _ l) by (done || lia).
Qed.

Lemma checkDirection_mono fuel fuel' state row col dr dc out :
  (fuel ≤ fuel')%nat →
  checkDirection fuel state row col dr dc = Ret out →
  checkDirection fuel' state row col dr dc = Ret out.
Proof.
  intros Hle. unfold checkDirection, countCells.
  destruct (countCells_loop fuel state _ _ dr dc) as [fwd| |] eqn:E1; cbn;
    [|done..].
  destruct (countCells_loop fuel state _ _ (- dr) (- dc)) as [bwd| |] eqn:E2;
    cbn; [|done..].
  rewrite (countCells_loop_mono _ _ _ _ _ _ _ _ Hle E1). cbn.
  by rewrite (countCells_loop_mono _ _ _ _ _ _ _ _ Hle E2).
Qed.

Lemma orElse_mono {A} (a a' b b' : res (option A)) out :
  (∀ x, a = Ret x → a' = Ret x) → (∀ x, b = Ret x → b' = Ret x) →
  orElse a b = Ret out → orElse a' b' = Ret out.
Proof.
  intros Ha Hb. unfold orElse. destruct a as [x| |]; cbn; [|done..].
  rewrite (Ha x eq_refl). cbn. destruct x; [done|]. apply Hb.
Qed.

Lemma isWinningMove_mono fuel fuel' state row col out :
  (fuel ≤ fuel')%nat →
  isWinningMove fuel state row col = Ret out →
  isWinningMove fuel' state row col = Ret out.
Proof.
  intros Hle. unfold isWinningMove.
  revert out.
  do 3 (intros ?; apply orElse_mono;
        [intros ?; by apply checkDirection_mono|]).
  intros ?. by apply checkDirection_mono.
Qed.

Lemma placeDisc_mono fuel fuel' state col state' :
  (fuel ≤ fuel')%nat →
  placeDisc fuel state col = Ret state' →
  placeDisc fuel' state col = Ret state'.
Proof.
  intros Hle. unfold placeDisc. case_decide; [done|].
  destruct (getEmptyRow _ col) as [row| |]; cbn; [|done..].
  case_decide; [done|].
  destruct (writeCell _ row col _) as [board| |]; cbn; [|done..].
  destruct (isWinningMove fuel _ row col) as [w| |] eqn:E; cbn; [|done..].
  by rewrite (isWinningMove_mono _ _ _ _ _ _ Hle E).
Qed.

Lemma playAll_mono fuel fuel' state cols state' :
  (fuel ≤ fuel')%nat →
  playAll fuel state cols = Ret state' →
  playAll fuel' state cols = Ret state'.
Proof.
  intros Hle. revert state. induction cols as [|col cols IH]; intros state;
    [done|].
  cbn [playAll]. destruct (placeDisc fuel state col) as [s| |] eqn:E; cbn;
    [|done..].
  rewrite (placeDisc_mono _ _ _ _ _ Hle E). cbn. apply IH.
Qed.

Lemma playAll_reachable fuel state cols state' :
  reachable state → playAll fuel state cols = Ret state' → reachable state'.
Proof.
  revert state. induction cols as [|col cols IH]; intros state Hreach.
  - by intros [= <-].
  - cbn [playAll]. destruct (placeDisc fuel state col) as [s| |] eqn:E; cbn;
      [|done..].
    apply IH. by eapply reachable_step.
Qed.

(** ** What a move does to the board *)

Lemma placeDisc_terminal fuel state col :
  result state ≠ continue → placeDisc fuel state col = Ret state.
Proof. intros Hres. unfold placeDisc. by rewrite decide_True. Qed.

Lemma placeDisc_full fuel state col :
  wf_board (gameBoard state) → columnFull (gameBoard state) col →
  placeDisc fuel state col = Ret state.
Proof.
  intros Hwf Hfull. unfold placeDisc. case_decide; [done|].
  rewrite list_fmap_id.
  destruct (getEmptyRow_spec _ col Hwf) as (row & -> & Hspec). cbn.
  destruct Hspec as [[-> _]|(Hr & _ & [Hempty _])]; [done|].
  by apply Hfull in Hempty.
Qed.

(** On a board of the right shape [placeDisc] returns. *)
Lemma placeDisc_returns fuel state col :
  wf_board (gameBoard state) → enoughFuel fuel →
  ∃ state', placeDisc fuel state col = Ret state'.
Proof.
  intros Hwf Hfuel.
  destruct (decide (result state = continue)) as [Hres|Hres].
  2: { exists state. by apply placeDisc_terminal. }
  destruct (getEmptyRow_spec _ col Hwf) as (row & Hget & Hspec).
  destruct Hspec as [[-> Hfull]|(Hr & Hc & Hlow)].
  { exists state. by apply placeDisc_full. }
  destruct (placeDisc_accepted fuel state col row Hwf Hfuel Hres Hlow)
    as [(d & discs & _ & _ & E)|[(_ & _ & E)|(_ & _ & E)]]; by eexists.
Qed.

Lemma placeDisc_board fuel state col state' :
  wf_board (gameBoard state) → placeDisc fuel state col = Ret state' →
  state' = state ∨
  ∃ row, result state = continue ∧ 0 ≤ row < ROWS ∧ 0 ≤ col < COLUMNS ∧
    lowestEmpty (gameBoard state) col row ∧
    gameBoard state' =
      dropDisc (gameBoard state) row col (currentPlayer state).
Proof.
  intros Hwf Hplace.
  destruct (decide (result state = continue)) as [Hres|Hres].
  2: { left. rewrite placeDisc_terminal in Hplace by done. congruence. }
  destruct (getEmptyRow_spec _ col Hwf) as (row & Hget & Hspec).
  destruct Hspec as [[-> Hfull]|(Hr & Hc & Hlow)].
  { left. rewrite placeDisc_full in Hplace by done. congruence. }
  right. exists row. repeat (split; [done|]).
  apply (placeDisc_mono fuel (fuel `max` 7)) in Hplace; [|lia].
  destruct (placeDisc_accepted (fuel `max` 7) state col row Hwf) as
    [(d & discs & _ & _ & E)|[(_ & _ & E)|(_ & _ & E)]];
    [unfold enoughFuel; lia|done..| | |];
    rewrite E in Hplace; by simplify_eq.
Qed.

Lemma wf_board_check board :
  length board = 6%nat →
  forallb (λ cells : list Cell, bool_decide (length cells = 7%nat)) board = true →
  wf_board board.
Proof.
  intros Hlen Hall. split; [done|].
  apply Forall_forall. intros cells Hin.
  rewrite forallb_forall in Hall. apply list_elem_of_In, Hall in Hin.
  by apply bool_decide_eq_true in Hin.
Qed.


(** ** Occupied cells and gravity *)

Lemma occupiedAt_iff board r c :
  occupiedAt board r c ↔ ∃ p, cellAt board r c = Some (Some p).
Proof.
  unfold occupiedAt. destruct (cellAt board r c) as [[p|]|].
  - split; [by eexists|done].
  - split; [done|]. by intros [? [=]].
  - split; [done|]. by intros [? [=]].
Qed.

Lemma occupied_or_empty board r c :
  wf_board board → 0 ≤ r < ROWS → 0 ≤ c < COLUMNS →
  occupiedAt board r c ∨ emptyAt board r c.
Proof.
  intros Hwf Hr Hc. destruct (cellAt_in_range board r c Hwf Hr Hc) as [x Hx].
  unfold occupiedAt, emptyAt. rewrite Hx. destruct x; auto.
Qed.

Lemma occupiedAt_range board r c :
  wf_board board → occupiedAt board r c → 0 ≤ r < ROWS ∧ 0 ≤ c < COLUMNS.
Proof.
  intros Hwf [p Hp]%occupiedAt_iff. by eapply cellAt_Some_range.
Qed.

(** Under the lowest empty cell of a column every cell is occupied. *)
Lemma lowestEmpty_below board col row r :
  wf_board board → lowestEmpty board col row → row < r < ROWS →
  occupiedAt board r col.
Proof.
  intros Hwf [Hempty Hmax] Hr.
  pose proof (cellAt_Some_range _ _ _ _ Hwf Hempty) as [Hrow Hcol].
  destruct (occupied_or_empty board r col Hwf) as [|He]; [lia|done|done|].
  apply Hmax in He. lia.
Qed.

Lemma occupiedAt_dropDisc board row col p r c :
  is_Some (cellAt board row col) →
  occupiedAt (dropDisc board row col p) r c ↔
  (r, c) = (row, col) ∨ occupiedAt board r c.
Proof.
  intros Hsome. destruct (decide ((r, c) = (row, col))) as [[= -> ->]|Hne].
  - unfold occupiedAt at 1. rewrite cellAt_dropDisc_eq by done. tauto.
  - unfold occupiedAt. rewrite cellAt_dropDisc_ne by done. tauto.
Qed.

Lemma gravity_dropDisc board col row p :
  wf_board board → gravityConsistent board → lowestEmpty board col row →
  gravityConsistent (dropDisc board row col p).
Proof.
  intros Hwf Hgrav Hlow c r r' Hocc Hr'.
  assert (is_Some (cellAt board row col)) as Hsome.
  { destruct Hlow as [-> _]. done. }
  apply occupiedAt_dropDisc in Hocc; [|done].
  apply occupiedAt_dropDisc; [done|].
  destruct Hocc as [[= -> ->]|Hocc].
  - right. by eapply lowestEmpty_below.
  - right. by eapply Hgrav.
Qed.

(** In a column that obeys gravity the discs are the cells under the lowest
    empty one. *)
Lemma discsInColumn_gravity board col row :
  wf_board board → lowestEmpty board col row → gravityColumn board col →
  discsInColumn board col = ROWS - 1 - row.
Proof.
  intros Hwf Hlow Hgrav.
  pose proof Hlow as [Hempty Hmax].
  pose proof (cellAt_Some_range _ _ _ _ Hwf Hempty) as [Hrow Hcol].
  unfold discsInColumn.
  rewrite (list_filter_iff _ (λ r, row < r < ROWS)).
  - unfold ROWS in *.
    assert (row = 0 ∨ row = 1 ∨ row = 2 ∨ row = 3 ∨ row = 4 ∨ row = 5)
      as Hcases by lia.
    destruct Hcases as [->|[->|[->|[->|[->| ->]]]]]; by vm_compute.
  - intros r. split.
    + intros Hocc. pose proof (occupiedAt_range _ _ _ Hwf Hocc) as [Hr _].
      destruct (Z.lt_trichotomy r row) as [Hlt|[->|Hgt]]; [| |lia].
      * assert (occupiedAt board row col) as Hocc' by (eapply Hgrav; [done|lia]).
        unfold occupiedAt, emptyAt in *. by rewrite Hempty in Hocc'.
      * unfold occupiedAt, emptyAt in *. by rewrite Hempty in Hocc.
    + intros Hr. by eapply lowestEmpty_below.
Qed.

Lemma firstWinningAxis_unique board p r0 c0 d d' :
  firstWinningAxis board p r0 c0 d → firstWinningAxis board p r0 c0 d' →
  d = d'.
Proof.
  intros (i & Hi & Hwin & Hmin) (i' & Hi' & Hwin' & Hmin').
  destruct (Nat.lt_trichotomy i i') as [Hlt|[->|Hlt]].
  - specialize (Hmin' _ _ Hi Hlt). lia.
  - congruence.
  - specialize (Hmin _ _ Hi' Hlt). lia.
Qed.

Lemma firstWinningAxis_wins board p r0 c0 d :
  firstWinningAxis board p r0 c0 d →
  d ∈ axes ∧ 4 ≤ runLength board p r0 c0 d.
Proof.
  intros (i & Hi & Hwin & _). split; [|done]. by eapply list_elem_of_lookup_2.
Qed.

(** Two of the four axes only meet in the cell they start from. *)
Lemma axes_meet r0 c0 d d' k k' :
  d ∈ axes → d' ∈ axes → d ≠ d' →
  stepTo r0 c0 d k = stepTo r0 c0 d' k' → k' = 0.
Proof.
  unfold axes. rewrite !elem_of_cons, !elem_of_nil.
  intros [->|[->|[->|[->|[]]]]] [->|[->|[->|[->|[]]]]] Hne;
    try done; unfold stepTo; cbn; intros [= ? ?]; lia.
Qed.

Lemma axes_nonzero d : d ∈ axes → d ≠ (0, 0).
Proof.
  unfold axes. rewrite !elem_of_cons, !elem_of_nil.
  intros [->|[->|[->|[->|[]]]]]; done.
Qed.

(** ** Properties of the engine *)

(** C2. A move on a decided game, in a column outside [0, COLUMNS) or in a
    column with no empty cell returns the state it was given, whatever the
    fuel: it neither throws nor fails. *)
Theorem placeDisc_rejected fuel state col :
  result state ≠ continue ∨
  wf_board (gameBoard state) ∧
    (¬ 0 ≤ col < COLUMNS ∨ columnFull (gameBoard state) col) →
  placeDisc fuel state col = Ret state.
Proof.
  intros [Hres|[Hwf Hcol]]; [by apply placeDisc_terminal|].
  apply placeDisc_full; [done|].
  destruct Hcol as [Hout|Hfull]; [|done].
  intros r Hr Hempty. apply Hout. by eapply cellAt_Some_range.
Qed.

Lemma placeDisc_rejected_witness :
  placeDisc 7 getInitialState 7 = Ret getInitialState.
Proof.
  apply placeDisc_rejected. right. split.
  - by apply wf_board_check.
  - left. unfold COLUMNS. lia.
Defined.

(** C7. In every state reached from the initial state by calls of
    [placeDisc], [winningDiscs] is non-null exactly when [result] is
    [win]. *)
Theorem reachable_winningDiscs state :
  reachable state → (winningDiscs state ≠ None ↔ result state = win).
Proof.
  induction 1 as [|fuel state col state' _ IH Hplace]; [done|].
  apply placeDisc_shape in Hplace
    as [->|[(b & discs & ->)|[(b & ->)|(b & ->)]]]; done.
Qed.

Lemma reachable_winningDiscs_witness :
  winningDiscs horizontalWin ≠ None ↔ result horizontalWin = win.
Proof.
  apply reachable_winningDiscs.
  apply (playAll_reachable 7 getInitialState [0; 0; 1; 1; 2; 2; 3]).
  - apply reachable_init.
  - reflexivity.
Defined.

(** C8. [isWinningCell state row col] is true exactly when [winningDiscs] is
    non-null and has the pair [(row, col)]; it is false when [winningDiscs]
    is null. *)
Theorem isWinningCell_spec state row col :
  (isWinningCell state row col = true ↔
   ∃ discs, winningDiscs state = Some discs ∧ (row, col) ∈ discs) ∧
  (winningDiscs state = None → isWinningCell state row col = false).
Proof.
  unfold isWinningCell. destruct (winningDiscs state) as [discs|].
  - split; [|done]. rewrite existsb_exists. split.
    + intros ([r c] & Hin & Heq). exists discs. split; [done|].
      apply andb_true_iff in Heq as [->%bool_decide_eq_true ->%bool_decide_eq_true].
      by apply list_elem_of_In.
    + intros (discs' & [= <-] & Hin). exists (row, col).
      split; [by apply list_elem_of_In|].
      by rewrite !bool_decide_eq_true_2.
  - split; [|done]. split; [done|]. by intros (? & [=] & _).
Qed.

(** C9. From the initial state the columns 0, 0, 1, 1, 2, 2, 3 end in a win
    of red whose winning discs are the cells (5,0), (5,1), (5,2), (5,3). *)
Theorem horizontal_win fuel :
  enoughFuel fuel →
  ∃ state' discs,
    playAll fuel getInitialState [0; 0; 1; 1; 2; 2; 3] = Ret state' ∧
    result state' = win ∧ currentPlayer state' = red ∧
    winningDiscs state' = Some discs ∧
    ∀ rc, rc ∈ discs ↔ rc ∈ [(5, 0); (5, 1); (5, 2); (5, 3)].
Proof.
  intros Hfuel.
  exists horizontalWin, [(5, 3); (5, 2); (5, 1); (5, 0)].
  split; [|repeat (split; [done|])].
  - by apply (playAll_mono 7 fuel).
  - intros rc. rewrite !elem_of_cons, !elem_of_nil. tauto.
Qed.

Lemma horizontal_win_witness :
  ∃ state' discs,
    playAll 7 getInitialState [0; 0; 1; 1; 2; 2; 3] = Ret state' ∧
    result state' = win ∧ currentPlayer state' = red ∧
    winningDiscs state' = Some discs ∧
    ∀ rc, rc ∈ discs ↔ rc ∈ [(5, 0); (5, 1); (5, 2); (5, 3)].
Proof. apply horizontal_win. unfold enoughFuel. lia. Defined.

(** Reachable states keep the dimensions of the board. *)
Lemma reachable_wf state : reachable state → wf_board (gameBoard state).
Proof.
  induction 1 as [|fuel state col state' _ IH Hplace].
  - by apply wf_board_check.
  - destruct (placeDisc_board _ _ _ _ IH Hplace)
      as [->|(row & _ & _ & _ & _ & ->)]; [done|]. by apply wf_dropDisc.
Qed.

(** C10. In every state reached from the initial state by calls of
    [placeDisc], no column has an empty cell below an occupied one. *)
Theorem reachable_gravity state :
  reachable state → gravityConsistent (gameBoard state).
Proof.
  induction 1 as [|fuel state col state' Hreach IH Hplace].
  - intros c r r' Hocc _. exfalso. revert Hocc.
    rewrite occupiedAt_iff. intros [p Hp].
    unfold cellAt, getInitialState, gameBoard in Hp.
    destruct (js_index _ r) as [cells|] eqn:E; [|done].
    apply js_index_Some in E as [_ E]. apply lookup_replicate in E as [-> _].
    apply js_index_Some in Hp as [_ Hp]. by apply lookup_replicate in Hp as [? _].
  - pose proof (reachable_wf _ Hreach) as Hwf.
    destruct (placeDisc_board _ _ _ _ Hwf Hplace)
      as [->|(row & _ & _ & _ & Hlow & ->)]; [done|].
    by apply gravity_dropDisc.
Qed.

Lemma reachable_gravity_witness : gravityConsistent (gameBoard horizontalWin).
Proof.
  apply reachable_gravity.
  apply (playAll_reachable 7 getInitialState [0; 0; 1; 1; 2; 2; 3]).
  - apply reachable_init.
  - reflexivity.
Defined.

Lemma getEmptyRow_lowest board col row :
  wf_board board → getEmptyRow board col = Ret row → row ≠ -1 →
  lowestEmpty board col row.
Proof.
  intros Hwf Hrow Hne.
  destruct (getEmptyRow_spec board col Hwf) as (row' & Hrow' & Hspec).
  rewrite Hrow in Hrow'. simplify_eq.
  destruct Hspec as [[-> _]|(_ & _ & H)]; done.
Qed.

Lemma topRowFull_check board :
  wf_board board →
  forallb (λ c, negb (is_null (cellAt board 0 c))) (seqZ 0 COLUMNS) = true →
  topRowFull board.
Proof.
  intros Hwf Hall c Hc Hempty. rewrite forallb_forall in Hall.
  specialize (Hall c). unfold emptyAt in Hempty. rewrite Hempty in Hall.
  assert (negb (is_null (Some None)) = true) as Hnull; [|done].
  apply Hall, list_elem_of_In, elem_of_seqZ. lia.
Qed.

(** C1. On a state with result [continue], let [(row, col)] be the cell an
    accepted move fills.  If the run of the mover's discs through that cell
    along one of the four axes has four cells or more, [placeDisc] returns
    result [win], the mover as [currentPlayer], the updated board, and as
    [winningDiscs] the cells of such a run (each once); if no axis has such
    a run, the result is not [win]. *)
Theorem placeDisc_win fuel state col row :
  wf_board (gameBoard state) → enoughFuel fuel →
  result state = continue → lowestEmpty (gameBoard state) col row →
  let p := currentPlayer state in
  let board' := dropDisc (gameBoard state) row col p in
  ((∃ d, d ∈ axes ∧ 4 ≤ runLength board' p row col d) →
   ∃ d discs, d ∈ axes ∧ 4 ≤ runLength board' p row col d ∧
     discs ≡ₚ axisRun board' p row col d ∧
     placeDisc fuel state col = Ret (mkGameState win board' p (Some discs))) ∧
  ((∀ d, d ∈ axes → runLength board' p row col d < 4) →
   ∃ state', placeDisc fuel state col = Ret state' ∧
     gameBoard state' = board' ∧ result state' ≠ win).
Proof.
  intros Hwf Hfuel Hres Hlow. cbv zeta.
  destruct (placeDisc_accepted fuel state col row Hwf Hfuel Hres Hlow)
    as [(d & discs & Hfirst & Hperm & E)|[(Hnone & _ & E)|(Hnone & _ & E)]].
  - apply firstWinningAxis_wins in Hfirst as [Hd Hlen]. split.
    + intros _. by exists d, discs.
    + intros Hnone. apply Hnone in Hd. lia.
  - split.
    + intros (d & Hd & Hlen). apply Hnone in Hd. lia.
    + intros _. by eexists.
  - split.
    + intros (d & Hd & Hlen). apply Hnone in Hd. lia.
    + intros _. by eexists.
Qed.

Lemma placeDisc_win_witness :
  let board' := dropDisc (gameBoard threeInARow) 5 3 red in
  ((∃ d, d ∈ axes ∧ 4 ≤ runLength board' red 5 3 d) →
   ∃ d discs, d ∈ axes ∧ 4 ≤ runLength board' red 5 3 d ∧
     discs ≡ₚ axisRun board' red 5 3 d ∧
     placeDisc 7 threeInARow 3 = Ret (mkGameState win board' red (Some discs))) ∧
  ((∀ d, d ∈ axes → runLength board' red 5 3 d < 4) →
   ∃ state', placeDisc 7 threeInARow 3 = Ret state' ∧
     gameBoard state' = board' ∧ result state' ≠ win).
Proof.
  apply (placeDisc_win 7 threeInARow 3 5).
  - by apply wf_board_check.
  - unfold enoughFuel. lia.
  - reflexivity.
  - apply getEmptyRow_lowest; [by apply wf_board_check|reflexivity|lia].
Defined.

(** Where an accepted move puts the disc, on any board of the right
    shape: in the lowest empty cell of the column. *)
Lemma placeDisc_lands fuel state col :
  wf_board (gameBoard state) → enoughFuel fuel →
  result state = continue → columnHasEmpty (gameBoard state) col →
  ∃ row state',
    placeDisc fuel state col = Ret state' ∧
    0 ≤ row < ROWS ∧
    lowestEmpty (gameBoard state) col row ∧
    gameBoard state' = dropDisc (gameBoard state) row col (currentPlayer state) ∧
    cellAt (gameBoard state') row col = Some (Some (currentPlayer state)).
Proof.
  intros Hwf Hfuel Hres Hhas.
  destruct (columnHasEmpty_lowest _ col Hwf Hhas)
    as (row & Hr & Hc & Hlow & Hget).
  assert (is_Some (cellAt (gameBoard state) row col)) as Hsome.
  { destruct Hlow as [-> _]. done. }
  exists row.
  destruct (placeDisc_accepted fuel state col row Hwf Hfuel Hres Hlow)
    as [(d & discs & _ & _ & E)|[(_ & _ & E)|(_ & _ & E)]];
    (eexists; split; [exact E|]); cbn [gameBoard];
    (split; [done|]); (split; [done|]); (split; [done|]);
    by apply cellAt_dropDisc_eq.
Qed.

(** A column obeys gravity when this is checked for its six cells. *)
Lemma gravityColumn_check board c :
  wf_board board →
  forallb (λ r,
    forallb (λ r',
      bool_decide (occupiedAt board r c → r < r' → occupiedAt board r' c))
      (seqZ 0 ROWS))
    (seqZ 0 ROWS) = true →
  gravityColumn board c.
Proof.
  intros Hwf Hall r r' Hocc Hr'.
  pose proof (occupiedAt_range _ _ _ Hwf Hocc) as [Hr _].
  rewrite forallb_forall in Hall.
  assert (In r (seqZ 0 ROWS)) as Hin by (apply list_elem_of_In, elem_of_seqZ; lia).
  apply Hall in Hin. rewrite forallb_forall in Hin.
  assert (In r' (seqZ 0 ROWS)) as Hin'
    by (apply list_elem_of_In, elem_of_seqZ; lia).
  apply Hin, bool_decide_eq_true in Hin'. apply Hin'; [done|lia].
Qed.

(** C3. On a state with result [continue] whose column [col] has no empty
    cell below an occupied one (so in every reachable state), an accepted
    move into the column, which holds [k] discs with [0 ≤ k < ROWS], puts
    the disc in row [ROWS - 1 - k], the highest row index whose cell in the
    column is empty. *)
Theorem placeDisc_gravity fuel state col :
  wf_board (gameBoard state) → enoughFuel fuel →
  result state = continue → columnHasEmpty (gameBoard state) col →
  gravityColumn (gameBoard state) col →
  let k := discsInColumn (gameBoard state) col in
  0 ≤ k < ROWS ∧
  ∃ state',
    placeDisc fuel state col = Ret state' ∧
    lowestEmpty (gameBoard state) col (ROWS - 1 - k) ∧
    gameBoard state' =
      dropDisc (gameBoard state) (ROWS - 1 - k) col (currentPlayer state) ∧
    cellAt (gameBoard state') (ROWS - 1 - k) col
    = Some (Some (currentPlayer state)).
Proof.
  intros Hwf Hfuel Hres Hhas Hgrav. cbv zeta.
  destruct (placeDisc_lands fuel state col Hwf Hfuel Hres Hhas)
    as (row & state' & E & Hr & Hlow & Hboard & Hcell).
  rewrite (discsInColumn_gravity _ col row) by done.
  replace (ROWS - 1 - (ROWS - 1 - row)) with row by lia.
  split; [lia|]. by exists state'.
Qed.

Lemma placeDisc_gravity_witness :
  let k := discsInColumn (gameBoard threeInARow) 0 in
  0 ≤ k < ROWS ∧
  ∃ state',
    placeDisc 7 threeInARow 0 = Ret state' ∧
    lowestEmpty (gameBoard threeInARow) 0 (ROWS - 1 - k) ∧
    gameBoard state' = dropDisc (gameBoard threeInARow) (ROWS - 1 - k) 0 red ∧
    cellAt (gameBoard state') (ROWS - 1 - k) 0 = Some (Some red).
Proof.
  apply (placeDisc_gravity 7 threeInARow 0).
  - by apply wf_board_check.
  - unfold enoughFuel. lia.
  - reflexivity.
  - exists 3. split; [unfold ROWS; lia|reflexivity].
  - apply gravityColumn_check; [by apply wf_board_check|reflexivity].
Defined.

(** C4. An accepted move on a state with result [continue] returns.  It
    ends in neither a win nor a draw exactly when, after the disc is placed,
    no axis has a run of four and the top row still has an empty cell; the
    state returned then has result [continue], the other player as
    [currentPlayer], null [winningDiscs], and a board that differs from the
    old one in one cell, which was empty and now holds the mover's disc. *)
Theorem placeDisc_continue fuel state col :
  wf_board (gameBoard state) → enoughFuel fuel →
  result state = continue → columnHasEmpty (gameBoard state) col →
  ∃ row state',
    placeDisc fuel state col = Ret state' ∧
    0 ≤ row < ROWS ∧ 0 ≤ col < COLUMNS ∧
    lowestEmpty (gameBoard state) col row ∧
    let p := currentPlayer state in
    let board' := dropDisc (gameBoard state) row col p in
    (result state' ≠ win ∧ result state' ≠ draw ↔
     (∀ d, d ∈ axes → runLength board' p row col d < 4) ∧
     ¬ topRowFull board') ∧
    (result state' ≠ win → result state' ≠ draw →
     result state' = continue ∧
     currentPlayer state' ≠ p ∧
     currentPlayer state' = otherPlayer p ∧
     winningDiscs state' = None ∧
     gameBoard state' = board' ∧
     cellAt (gameBoard state) row col = Some None ∧
     cellAt (gameBoard state') row col = Some (Some p) ∧
     ∀ r c, (r, c) ≠ (row, col) →
       cellAt (gameBoard state') r c = cellAt (gameBoard state) r c).
Proof.
  intros Hwf Hfuel Hres Hhas.
  destruct (columnHasEmpty_lowest _ col Hwf Hhas)
    as (row & Hr & Hc & Hlow & Hget).
  exists row. cbv zeta.
  destruct (placeDisc_accepted fuel state col row Hwf Hfuel Hres Hlow)
    as [(d & discs & Hfirst & _ & E)|[(Hnone & Hfull & E)|(Hnone & Hfull & E)]];
    (eexists; split; [exact E|]); do 3 (split; [done|]);
    cbn [result currentPlayer winningDiscs gameBoard].
  - apply firstWinningAxis_wins in Hfirst as [Hd Hlen]. split; [|done].
    split; [by intros [? _]|]. intros [Hnone _]. apply Hnone in Hd. lia.
  - split; [|done]. split; [by intros [_ ?]|]. by intros [_ ?].
  - split; [done|]. intros _ _. split; [done|]. split.
    { unfold otherPlayer. case_decide; congruence. }
    split; [done|]. split; [done|]. split; [done|].
    destruct Hlow as [Hempty _]. split; [done|]. split.
    + apply cellAt_dropDisc_eq. by rewrite Hempty.
    + intros r c Hne. by apply cellAt_dropDisc_ne.
Qed.

Lemma placeDisc_continue_witness :
  ∃ row state',
    placeDisc 7 getInitialState 0 = Ret state' ∧
    0 ≤ row < ROWS ∧ 0 ≤ 0 < COLUMNS ∧
    lowestEmpty (gameBoard getInitialState) 0 row ∧
    let board' := dropDisc (gameBoard getInitialState) row 0 red in
    (result state' ≠ win ∧ result state' ≠ draw ↔
     (∀ d, d ∈ axes → runLength board' red row 0 d < 4) ∧
     ¬ topRowFull board') ∧
    (result state' ≠ win → result state' ≠ draw →
     result state' = continue ∧
     currentPlayer state' ≠ red ∧
     currentPlayer state' = otherPlayer red ∧
     winningDiscs state' = None ∧
     gameBoard state' = board' ∧
     cellAt (gameBoard getInitialState) row 0 = Some None ∧
     cellAt (gameBoard state') row 0 = Some (Some red) ∧
     ∀ r c, (r, c) ≠ (row, 0) →
       cellAt (gameBoard state') r c = cellAt (gameBoard getInitialState) r c).
Proof.
  apply (placeDisc_continue 7 getInitialState 0).
  - by apply wf_board_check.
  - unfold enoughFuel. lia.
  - reflexivity.
  - exists 5. split; [unfold ROWS; lia|reflexivity].
Defined.

(** C5. An accepted move on a state with result [continue] that leaves the
    top row without an empty cell returns result [draw], null
    [winningDiscs], the mover as [currentPlayer] and the updated board when
    no axis has a run of four; when an axis has one, the result is [win]:
    the win is looked for first. *)
Theorem placeDisc_draw fuel state col row :
  wf_board (gameBoard state) → enoughFuel fuel →
  result state = continue → lowestEmpty (gameBoard state) col row →
  let p := currentPlayer state in
  let board' := dropDisc (gameBoard state) row col p in
  topRowFull board' →
  ((∀ d, d ∈ axes → runLength board' p row col d < 4) →
   placeDisc fuel state col = Ret (mkGameState draw board' p None)) ∧
  ((∃ d, d ∈ axes ∧ 4 ≤ runLength board' p row col d) →
   ∃ discs,
     placeDisc fuel state col = Ret (mkGameState win board' p (Some discs))).
Proof.
  intros Hwf Hfuel Hres Hlow. cbv zeta. intros Hfull.
  destruct (placeDisc_accepted fuel state col row Hwf Hfuel Hres Hlow)
    as [(d & discs & Hfirst & _ & E)|[(Hnone & _ & E)|(_ & Hnot & _)]];
    [| |done].
  - apply firstWinningAxis_wins in Hfirst as [Hd Hlen]. split.
    + intros Hnone. apply Hnone in Hd. lia.
    + intros _. by exists discs.
  - split; [done|]. intros (d & Hd & Hlen). apply Hnone in Hd. lia.
Qed.

Lemma placeDisc_draw_witness :
  let board' := dropDisc (gameBoard lastCell) 0 6 red in
  ((∀ d, d ∈ axes → runLength board' red 0 6 d < 4) →
   placeDisc 7 lastCell 6 = Ret (mkGameState draw board' red None)) ∧
  ((∃ d, d ∈ axes ∧ 4 ≤ runLength board' red 0 6 d) →
   ∃ discs,
     placeDisc 7 lastCell 6 = Ret (mkGameState win board' red (Some discs))).
Proof.
  apply (placeDisc_draw 7 lastCell 6 0).
  - by apply wf_board_check.
  - unfold enoughFuel. lia.
  - reflexivity.
  - apply getEmptyRow_lowest; [by apply wf_board_check|reflexivity|lia].
  - apply topRowFull_check; [by apply wf_board_check|reflexivity].
Defined.

(** C6. When an accepted move makes runs of four on several axes, the axes
    are tried in the order (0,1), (1,0), (1,1), (1,-1) and [winningDiscs]
    holds the cells of the run on the first axis with four or more, each
    once: every other axis with such a run has a cell that is left out. *)
Theorem placeDisc_first_axis fuel state col row d :
  wf_board (gameBoard state) → enoughFuel fuel →
  result state = continue → lowestEmpty (gameBoard state) col row →
  let p := currentPlayer state in
  let board' := dropDisc (gameBoard state) row col p in
  firstWinningAxis board' p row col d →
  ∃ discs,
    placeDisc fuel state col = Ret (mkGameState win board' p (Some discs)) ∧
    discs ≡ₚ axisRun board' p row col d ∧
    ∀ d', d' ∈ axes → d' ≠ d → 4 ≤ runLength board' p row col d' →
      ∃ rc, rc ∈ axisRun board' p row col d' ∧ rc ∉ discs.
Proof.
  intros Hwf Hfuel Hres Hlow. cbv zeta. intros Hfirst.
  pose proof Hlow as [Hempty _].
  pose proof (cellAt_Some_range _ _ _ _ Hwf Hempty) as [Hr Hc].
  destruct (placeDisc_accepted fuel state col row Hwf Hfuel Hres Hlow)
    as [(d0 & discs & Hfirst0 & Hperm & E)|[(Hnone & _ & _)|(Hnone & _ & _)]].
  2, 3: apply firstWinningAxis_wins in Hfirst as [Hd Hlen];
        apply Hnone in Hd; lia.
  assert (d0 = d) as -> by by eapply firstWinningAxis_unique.
  exists discs. split; [done|]. split; [done|].
  apply firstWinningAxis_wins in Hfirst as [Hd _].
  intros d' Hd' Hne Hlen.
  set (p := currentPlayer state) in *.
  set (board' := dropDisc (gameBoard state) row col p) in *.
  set (state' := mkGameState continue board' p None).
  pose proof (NoDup_axisRun state' row col d' (axes_nonzero _ Hd')) as Hnd.
  cbn [gameBoard currentPlayer state'] in Hnd.
  assert (∃ rc, rc ∈ axisRun board' p row col d' ∧ rc ≠ (row, col))
    as (rc & Hin & Hrc).
  { unfold runLength in Hlen.
    destruct (axisRun board' p row col d') as [|x [|y l]]; cbn in Hlen;
      [lia..|].
    apply NoDup_cons in Hnd as [Hxy _].
    destruct (decide (x = (row, col))) as [->|].
    - exists y. split; [apply elem_of_cons; right; apply elem_of_cons; by left|].
      intros ->. apply Hxy. apply elem_of_cons. by left.
    - exists x. split; [apply elem_of_cons; by left|done]. }
  exists rc. split; [done|]. rewrite Hperm. intros Hin'.
  apply (axisRun_elem state' row col Hr Hc d' rc (axes_nonzero _ Hd')) in Hin
    as (k' & -> & _).
  apply (axisRun_elem state' row col Hr Hc d _ (axes_nonzero _ Hd)) in Hin'
    as (k & Heq & _).
  symmetry in Heq. apply axes_meet in Heq; [|done..].
  subst k'. by rewrite stepTo_0 in Hrc.
Qed.

Lemma placeDisc_first_axis_witness :
  let board' := dropDisc (gameBoard doubleThreat) 5 3 red in
  ∃ discs,
    placeDisc 7 doubleThreat 3 = Ret (mkGameState win board' red (Some discs)) ∧
    discs ≡ₚ axisRun board' red 5 3 (0, 1) ∧
    ∀ d', d' ∈ axes → d' ≠ (0, 1) → 4 ≤ runLength board' red 5 3 d' →
      ∃ rc, rc ∈ axisRun board' red 5 3 d' ∧ rc ∉ discs.
Proof.
  apply (placeDisc_first_axis 7 doubleThreat 3 5 (0, 1)).
  - by apply wf_board_check.
  - unfold enoughFuel. lia.
  - reflexivity.
  - apply getEmptyRow_lowest; [by apply wf_board_check|reflexivity|lia].
  - exists 0%nat. split; [reflexivity|]. split; [by vm_compute|].
    intros j d' _ Hj. lia.
Defined.

(** The move of the witness completes a row and a diagonal; only the row is
    reported. *)
Example doubleThreat_reports_row :
  let board' := dropDisc (gameBoard doubleThreat) 5 3 red in
  runLength board' red 5 3 (0, 1) = 4 ∧
  runLength board' red 5 3 (1, 1) = 4 ∧
  placeDisc 7 doubleThreat 3 =
    Ret (mkGameState win board' red (Some [(5, 3); (5, 2); (5, 1); (5, 0)])).
Proof. by vm_compute. Qed.

(** ** Further properties: moves in series *)

Lemma placeDisc_wf fuel state col state' :
  wf_board (gameBoard state) → placeDisc fuel state col = Ret state' →
  wf_board (gameBoard state').
Proof.
  intros Hwf Hplace.
  destruct (placeDisc_board _ _ _ _ Hwf Hplace)
    as [->|(row & _ & _ & _ & _ & ->)]; [done|]. by apply wf_dropDisc.
Qed.

(** X1. On a board of 6 rows of 7 cells any series of columns, valid or
    not, is played to the end with 7 rounds of fuel or more: nothing throws,
    no loop runs on, and the board keeps its shape. *)
Theorem playAll_returns fuel state cols :
  wf_board (gameBoard state) → enoughFuel fuel →
  ∃ state', playAll fuel state cols = Ret state' ∧
    wf_board (gameBoard state').
Proof.
  intros Hwf Hfuel. revert state Hwf.
  induction cols as [|col cols IH]; intros state Hwf; [by exists state|].
  destruct (placeDisc_returns fuel state col Hwf Hfuel) as [s E].
  cbn [playAll]. rewrite E. cbn. apply IH. by eapply placeDisc_wf.
Qed.

Lemma playAll_returns_witness :
  ∃ state', playAll 7 threeInARow [9; 3; -1; 3] = Ret state' ∧
    wf_board (gameBoard state').
Proof.
  apply playAll_returns.
  - by apply wf_board_check.
  - unfold enoughFuel. lia.
Defined.

(** X2. On a state with result [continue] whose board has fewer than 6 rows
    [placeDisc] throws, whatever the column: [getEmptyRow] starts at row 5. *)
Theorem placeDisc_short_board fuel state col :
  result state = continue → (length (gameBoard state) < 6)%nat →
  placeDisc fuel state col = TypeError.
Proof.
  intros Hres Hlen. unfold placeDisc.
  rewrite decide_False by (by rewrite Hres; intros ?).
  rewrite list_fmap_id. unfold getEmptyRow. cbn [getEmptyRow_from].
  unfold readCell.
  assert (js_index (gameBoard state) (Z.of_nat 5) = None) as ->; [|done].
  apply js_index_None. lia.
Qed.

Lemma placeDisc_short_board_witness :
  placeDisc 7 (mkGameState continue [emptyRow; emptyRow] red None) 0
  = TypeError.
Proof. apply placeDisc_short_board; [reflexivity|cbn; lia]. Defined.

(** X3. With direction (0, 0), from a cell that holds a disc of the current
    player, the condition of the loop of [countCells] is true in every
    round: however many rounds are allowed, neither [countCells] nor
    [checkDirection] returns a result.  (The loop adds a pair in each round,
    so the engine ends such a call only by running out of memory.) *)
Theorem countCells_zero_direction fuel state row col :
  wf_board (gameBoard state) →
  cellAt (gameBoard state) row col = Some (Some (currentPlayer state)) →
  (∀ discs, countCells fuel state row col 0 0 ≠ Ret discs) ∧
  (∀ out, checkDirection fuel state row col 0 0 ≠ Ret out).
Proof.
  intros Hwf Hcell.
  pose proof (cellAt_Some_range _ _ _ _ Hwf Hcell) as [Hr Hc].
  assert (∀ discs, countCells_loop fuel state row col 0 0 ≠ Ret discs) as E.
  { induction fuel as [|fuel IH]; intros discs; [done|].
    rewrite countCells_loop_S by done. unfold holds. cbn [fst snd].
    rewrite !bool_decide_eq_true_2 by done. rewrite Hcell.
    unfold is_player. rewrite bool_decide_eq_true_2 by done. cbn [andb].
    rewrite !Z.add_0_r.
    destruct (countCells_loop fuel state row col 0 0) as [l| |] eqn:El;
      cbn; [|done..]. by destruct (IH l). }
  assert (∀ discs, countCells fuel state row col 0 0 ≠ Ret discs) as E'.
  { intros discs. unfold countCells. rewrite !Z.add_0_r. apply E. }
  split; [done|]. intros out. unfold checkDirection.
  destruct (countCells fuel state row col 0 0) as [l| |] eqn:El; cbn;
    [|done..]. by destruct (E' l).
Qed.

Lemma countCells_zero_direction_witness :
  (∀ discs, countCells 100 horizontalWin 5 0 0 0 ≠ Ret discs) ∧
  (∀ out, checkDirection 100 horizontalWin 5 0 0 0 ≠ Ret out).
Proof.
  apply countCells_zero_direction; [by apply wf_board_check|reflexivity].
Defined.

(** X4. A disc stays where it is: a cell that holds a disc holds the same
    disc after any series of moves. *)
Theorem playAll_keeps_discs fuel state cols state' r c p :
  wf_board (gameBoard state) → playAll fuel state cols = Ret state' →
  cellAt (gameBoard state) r c = Some (Some p) →
  cellAt (gameBoard state') r c = Some (Some p).
Proof.
  revert state. induction cols as [|col cols IH]; intros state Hwf.
  - by intros [= <-].
  - cbn [playAll]. destruct (placeDisc fuel state col) as [s| |] eqn:E; cbn;
      [|done..].
    intros Hplay Hcell. apply (IH s); [by eapply placeDisc_wf|done|].
    destruct (placeDisc_board _ _ _ _ Hwf E)
      as [->|(row & _ & _ & _ & [Hempty _] & ->)]; [done|].
    rewrite cellAt_dropDisc_ne; [done|].
    intros [= -> ->]. unfold emptyAt in Hempty. congruence.
Qed.

Lemma playAll_keeps_discs_witness :
  cellAt (gameBoard horizontalWin) 5 0 = Some (Some red).
Proof.
  apply (playAll_keeps_discs 7 threeInARow [3; 0; 1] horizontalWin).
  - by apply wf_board_check.
  - reflexivity.
  - reflexivity.
Defined.

(** X5. A decided game is left as it is by any series of moves. *)
Theorem playAll_terminal fuel state cols :
  result state ≠ continue → playAll fuel state cols = Ret state.
Proof.
  intros Hres. induction cols as [|col cols IH]; [done|].
  cbn [playAll]. rewrite placeDisc_terminal by done. cbn. apply IH.
Qed.

Lemma playAll_terminal_witness :
  playAll 0 horizontalWin [0; 6; 3; 12] = Ret horizontalWin.
Proof. apply playAll_terminal. discriminate. Defined.

(** ** Further properties: what reachable states look like *)

(** The ways [placeDisc] can return, with the state it returns. *)
Lemma placeDisc_cases fuel state col state' :
  wf_board (gameBoard state) → placeDisc fuel state col = Ret state' →
  state' = state ∨
  ∃ row, result state = continue ∧ 0 ≤ row < ROWS ∧ 0 ≤ col < COLUMNS ∧
    lowestEmpty (gameBoard state) col row ∧
    let p := currentPlayer state in
    let board' := dropDisc (gameBoard state) row col p in
    ((∃ d discs, firstWinningAxis board' p row col d ∧
        discs ≡ₚ axisRun board' p row col d ∧
        state' = mkGameState win board' p (Some discs)) ∨
     ((∀ d, d ∈ axes → runLength board' p row col d < 4) ∧
      topRowFull board' ∧ state' = mkGameState draw board' p None) ∨
     ((∀ d, d ∈ axes → runLength board' p row col d < 4) ∧
      ¬ topRowFull board' ∧
      state' = mkGameState continue board' (otherPlayer p) None)).
Proof.
  intros Hwf Hplace.
  destruct (decide (result state = continue)) as [Hres|Hres].
  2: { left. rewrite placeDisc_terminal in Hplace by done. congruence. }
  destruct (getEmptyRow_spec _ col Hwf) as (row & Hget & Hspec).
  destruct Hspec as [[-> Hfull]|(Hr & Hc & Hlow)].
  { left. rewrite placeDisc_full in Hplace by done. congruence. }
  right. exists row. repeat (split; [done|]). cbv zeta.
  apply (placeDisc_mono fuel (fuel `max` 7)) in Hplace; [|lia].
  destruct (placeDisc_accepted (fuel `max` 7) state col row Hwf) as
    [(d & discs & Hfirst & Hperm & E)|[(Hnone & Hfull & E)|(Hnone & Hfull & E)]];
    [unfold enoughFuel; lia|done..| | |];
    rewrite E in Hplace; simplify_eq.
  - left. by exists d, discs.
  - right. by left.
  - right. by right.
Qed.

(** The placed disc is on the board and of the mover. *)
Lemma holds_dropDisc board row col p :
  wf_board board → emptyAt board row col →
  holds (dropDisc board row col p) p (row, col) = true.
Proof.
  intros Hwf Hempty.
  pose proof (cellAt_Some_range _ _ _ _ Hwf Hempty) as [Hr Hc].
  unfold holds. cbn [fst snd]. rewrite !bool_decide_eq_true_2 by done.
  rewrite cellAt_dropDisc_eq by (by rewrite Hempty).
  unfold is_player. by rewrite bool_decide_eq_true_2.
Qed.

Lemma holds_cellAt board p rc :
  holds board p rc = true → cellAt board rc.1 rc.2 = Some (Some p).
Proof.
  unfold holds, is_player. rewrite !andb_true_iff, !bool_decide_eq_true.
  tauto.
Qed.

(** The cells of a run through a cell of [p] all hold a disc of [p]. *)
Lemma axisRun_holds board p r0 c0 d rc :
  0 ≤ r0 < ROWS → 0 ≤ c0 < COLUMNS → d ≠ (0, 0) →
  holds board p (r0, c0) = true →
  rc ∈ axisRun board p r0 c0 d →
  holds board p rc = true ∧ ∃ k, rc = stepTo r0 c0 d k.
Proof.
  intros Hr Hc Hd Hh Hin.
  apply (axisRun_elem (mkGameState continue board p None) r0 c0 Hr Hc d rc Hd)
    in Hin as (k & -> & Hall).
  split; [|by exists k].
  destruct (decide (k = 0)) as [->|Hk]; [by rewrite stepTo_0|].
  apply Hall. lia.
Qed.

(** Shape and gravity along the moves. *)
Lemma reachable_shape state :
  reachable state →
  wf_board (gameBoard state) ∧ gravityConsistent (gameBoard state).
Proof.
  induction 1 as [|fuel state col state' Hreach [Hwf Hgrav] Hplace].
  - split; [by apply wf_board_check|].
    intros c r r' Hocc _. exfalso. revert Hocc.
    rewrite occupiedAt_iff. intros [p Hp].
    unfold cellAt, getInitialState, gameBoard in Hp.
    destruct (js_index _ r) as [cells|] eqn:E; [|done].
    apply js_index_Some in E as [_ E]. apply lookup_replicate in E as [-> _].
    apply js_index_Some in Hp as [_ Hp].
    by apply lookup_replicate in Hp as [? _].
  - destruct (placeDisc_board _ _ _ _ Hwf Hplace)
      as [->|(row & _ & _ & _ & Hlow & ->)]; [done|].
    split; [by apply wf_dropDisc|by apply gravity_dropDisc].
Qed.

(** The winning discs along the moves. *)
Lemma reachable_discs state discs :
  reachable state → winningDiscs state = Some discs →
  result state = win ∧ NoDup discs ∧ 4 ≤ Z.of_nat (length discs) ∧
  ∃ r0 c0 d, d ∈ axes ∧
    ∀ rc, rc ∈ discs →
      holds (gameBoard state) (currentPlayer state) rc = true ∧
      ∃ k, rc = stepTo r0 c0 d k.
Proof.
  intros Hreach. revert discs.
  induction Hreach as [|fuel state col state' Hreach IH Hplace];
    intros discs; [done|].
  pose proof (reachable_shape _ Hreach) as [Hwf _].
  destruct (placeDisc_cases _ _ _ _ Hwf Hplace)
    as [->|(row & Hres & Hr & Hc & Hlow & Hcases)]; [apply IH|].
  cbv zeta in Hcases.
  destruct Hcases as [(d & discs' & Hfirst & Hperm & ->)|
                      [(_ & _ & ->)|(_ & _ & ->)]]; [|done..].
  cbn. intros [= <-].
  apply firstWinningAxis_wins in Hfirst as [Hd Hlen].
  pose proof (axes_nonzero _ Hd) as Hd0.
  split; [done|]. split.
  { rewrite Hperm.
    by apply (NoDup_axisRun (mkGameState continue _ (currentPlayer state) None)). }
  split.
  { unfold runLength in Hlen. apply Permutation_length in Hperm.
    unfold Coord in *. lia. }
  exists row, col, d. split; [done|]. intros rc Hin. rewrite Hperm in Hin.
  destruct Hlow as [Hempty _].
  eapply axisRun_holds; [done..| |done]. by apply holds_dropDisc.
Qed.

(** The top row along the moves. *)
Lemma reachable_topRow state :
  reachable state →
  (result state = draw → topRowFull (gameBoard state)) ∧
  (result state = continue → ¬ topRowFull (gameBoard state)).
Proof.
  induction 1 as [|fuel state col state' Hreach IH Hplace].
  - split; [done|]. intros _ Hfull. by apply (Hfull 0).
  - pose proof (reachable_shape _ Hreach) as [Hwf _].
    destruct (placeDisc_cases _ _ _ _ Hwf Hplace)
      as [->|(row & Hres & Hr & Hc & Hlow & Hcases)]; [done|].
    cbv zeta in Hcases.
    destruct Hcases as [(d & discs' & _ & _ & ->)|
                        [(_ & Hfull & ->)|(_ & Hfull & ->)]]; by cbn.
Qed.

#[global] Instance emptyAt_dec board r c : Decision (emptyAt board r c).
Proof. unfold emptyAt. apply _. Defined.

Lemma topRowFull_or_empty board :
  topRowFull board ∨ ∃ c, 0 ≤ c < COLUMNS ∧ emptyAt board 0 c.
Proof.
  destruct (decide (Exists (λ c, emptyAt board 0 c) (seqZ 0 COLUMNS)))
    as [Hex|Hex].
  - right. apply Exists_exists in Hex as (c & Hc & Hempty).
    exists c. split; [|done]. apply elem_of_seqZ in Hc. lia.
  - left. intros c Hc Hempty. apply Hex, Exists_exists.
    exists c. split; [|done]. apply elem_of_seqZ. lia.
Qed.

Lemma gravity_full board :
  wf_board board → gravityConsistent board → topRowFull board →
  ∀ r c, 0 ≤ r < ROWS → 0 ≤ c < COLUMNS → occupiedAt board r c.
Proof.
  intros Hwf Hgrav Hfull r c Hr Hc.
  assert (occupiedAt board 0 c) as Htop.
  { destruct (occupied_or_empty board 0 c Hwf) as [|He];
      [unfold ROWS; lia|done|done|]. by apply Hfull in He. }
  destruct (decide (r = 0)) as [->|]; [done|].
  apply (Hgrav c 0 r); [done|lia].
Qed.

(** X6. In a reachable state non-null [winningDiscs] come with result
    [win]; they are four or more cells, each once, all on one line along one
    of the four axes, and each holds a disc of [currentPlayer], the winner. *)
Theorem reachable_winningDiscs_sound state discs :
  reachable state → winningDiscs state = Some discs →
  result state = win ∧ NoDup discs ∧ 4 ≤ Z.of_nat (length discs) ∧
  (∀ rc, rc ∈ discs →
     cellAt (gameBoard state) rc.1 rc.2 = Some (Some (currentPlayer state))) ∧
  ∃ r0 c0 d, d ∈ axes ∧ ∀ rc, rc ∈ discs → ∃ k, rc = stepTo r0 c0 d k.
Proof.
  intros Hreach Hdiscs.
  destruct (reachable_discs _ _ Hreach Hdiscs)
    as (Hres & Hnd & Hlen & r0 & c0 & d & Hd & Hall).
  repeat (split; [done|]). split.
  - intros rc Hin. apply holds_cellAt. by apply Hall.
  - exists r0, c0, d. split; [done|]. intros rc Hin. by apply Hall.
Qed.

Lemma horizontalWin_reachable : reachable horizontalWin.
Proof.
  apply (playAll_reachable 7 getInitialState [0; 0; 1; 1; 2; 2; 3]).
  - apply reachable_init.
  - reflexivity.
Qed.

Lemma reachable_winningDiscs_sound_witness :
  let discs := [(5, 3); (5, 2); (5, 1); (5, 0)] in
  result horizontalWin = win ∧ NoDup discs ∧ 4 ≤ Z.of_nat (length discs) ∧
  (∀ rc, rc ∈ discs →
     cellAt (gameBoard horizontalWin) rc.1 rc.2
     = Some (Some (currentPlayer horizontalWin))) ∧
  ∃ r0 c0 d, d ∈ axes ∧ ∀ rc, rc ∈ discs → ∃ k, rc = stepTo r0 c0 d k.
Proof.
  apply reachable_winningDiscs_sound;
    [apply horizontalWin_reachable|reflexivity].
Defined.

(** X7. In a reachable state a cell for which [isWinningCell] answers true
    holds a disc of [currentPlayer], and the result is [win]. *)
Theorem isWinningCell_reachable state row col :
  reachable state → isWinningCell state row col = true →
  result state = win ∧
  cellAt (gameBoard state) row col = Some (Some (currentPlayer state)).
Proof.
  intros Hreach. unfold isWinningCell.
  destruct (winningDiscs state) as [discs|] eqn:Hdiscs; [|done].
  rewrite existsb_exists. intros ([r c] & Hin & Heq).
  apply andb_true_iff in Heq as [->%bool_decide_eq_true ->%bool_decide_eq_true].
  apply list_elem_of_In in Hin.
  destruct (reachable_discs _ _ Hreach Hdiscs)
    as (Hres & _ & _ & r0 & c0 & d & _ & Hall).
  split; [done|]. apply (holds_cellAt _ _ (row, col)). by apply Hall.
Qed.

Lemma isWinningCell_reachable_witness :
  result horizontalWin = win ∧
  cellAt (gameBoard horizontalWin) 5 2
  = Some (Some (currentPlayer horizontalWin)).
Proof.
  apply isWinningCell_reachable;
    [apply horizontalWin_reachable|reflexivity].
Defined.

(** X8. A reachable state with result [draw] has a disc in every cell of
    the board. *)
Theorem reachable_draw_full state r c :
  reachable state → result state = draw →
  0 ≤ r < ROWS → 0 ≤ c < COLUMNS →
  occupiedAt (gameBoard state) r c.
Proof.
  intros Hreach Hres.
  pose proof (reachable_shape _ Hreach) as [Hwf Hgrav].
  pose proof (reachable_topRow _ Hreach) as [Hfull _].
  by apply gravity_full; [..|apply Hfull].
Qed.

(** X9. A reachable state with result [continue] has a column that takes a
    disc: the game is never stuck before it is decided. *)
Theorem reachable_continue_move state :
  reachable state → result state = continue →
  ∃ col, 0 ≤ col < COLUMNS ∧ columnHasEmpty (gameBoard state) col.
Proof.
  intros Hreach Hres.
  pose proof (reachable_topRow _ Hreach) as [_ Hnot].
  destruct (topRowFull_or_empty (gameBoard state)) as [Hfull|(c & Hc & He)].
  - by apply Hnot in Hfull.
  - exists c. split; [done|]. exists 0. split; [unfold ROWS; lia|done].
Qed.

Lemma reachable_continue_move_witness :
  ∃ col, 0 ≤ col < COLUMNS ∧ columnHasEmpty (gameBoard getInitialState) col.
Proof.
  apply reachable_continue_move; [apply reachable_init|reflexivity].
Defined.

(** X10. On a board of the right shape with no empty cell below an occupied
    one, [isBoardFull] answers true exactly when every cell holds a disc. *)
Theorem isBoardFull_gravity board :
  wf_board board → gravityConsistent board →
  (isBoardFull board = Ret true ↔
   ∀ r c, 0 ≤ r < ROWS → 0 ≤ c < COLUMNS → occupiedAt board r c).
Proof.
  intros Hwf Hgrav.
  destruct (isBoardFull_spec board Hwf) as [[-> Hfull]|[-> Hnot]].
  - split; [|done]. intros _. by apply gravity_full.
  - split; [done|]. intros Hall. exfalso. apply Hnot.
    intros c Hc Hempty. specialize (Hall 0 c).
    unfold occupiedAt, emptyAt in *. rewrite Hempty in Hall.
    apply Hall; [unfold ROWS; lia|done].
Qed.

Lemma drawnGame_reachable : reachable drawnGame.
Proof.
  apply (playAll_reachable 7 getInitialState drawnGameColumns).
  - apply reachable_init.
  - by vm_compute.
Qed.

Lemma reachable_draw_full_witness : occupiedAt (gameBoard drawnGame) 0 6.
Proof.
  apply reachable_draw_full.
  - apply drawnGame_reachable.
  - reflexivity.
  - unfold ROWS. lia.
  - unfold COLUMNS. lia.
Defined.

Lemma isBoardFull_gravity_witness :
  isBoardFull (gameBoard horizontalWin) = Ret true ↔
  ∀ r c, 0 ≤ r < ROWS → 0 ≤ c < COLUMNS →
    occupiedAt (gameBoard horizontalWin) r c.
Proof.
  apply isBoardFull_gravity.
  - by apply wf_board_check.
  - apply reachable_shape, horizontalWin_reachable.
Defined.

(** ** Further properties: counting discs *)

Lemma elem_of_allCells rc :
  rc ∈ allCells ↔ 0 ≤ rc.1 < ROWS ∧ 0 ≤ rc.2 < COLUMNS.
Proof.
  unfold allCells. rewrite list_elem_of_In, in_concat. split.
  - intros (l & Hl & Hrc). apply list_elem_of_In, list_elem_of_fmap in Hl
      as (r & -> & Hr).
    apply list_elem_of_In, list_elem_of_fmap in Hrc as (c & -> & Hc).
    apply elem_of_seqZ in Hr, Hc. cbn. lia.
  - intros [Hr Hc]. exists ((λ c, (rc.1, c)) <$> seqZ 0 COLUMNS). split.
    + apply list_elem_of_In, list_elem_of_fmap. exists rc.1.
      split; [done|]. apply elem_of_seqZ. lia.
    + apply list_elem_of_In, list_elem_of_fmap. exists rc.2.
      split; [by destruct rc|]. apply elem_of_seqZ. lia.
Qed.

Lemma NoDup_allCells : NoDup allCells.
Proof. apply (bool_decide_unpack _). by vm_compute. Qed.

Section filters.
Context {A : Type} `{!EqDecision A} (P Q : A → Prop).
Context `{!∀ x, Decision (P x)} `{!∀ x, Decision (Q x)}.

Lemma filter_ext_in (l : list A) :
  (∀ y, y ∈ l → (P y ↔ Q y)) → filter P l = filter Q l.
Proof.
  induction l as [|a l IH]; intros Hall; [done|].
  rewrite !filter_cons.
  rewrite IH by (intros y Hy; apply Hall; by right).
  pose proof (Hall a (list_elem_of_here _ _)) as Ha.
  destruct (decide (P a)), (decide (Q a)); tauto.
Qed.

(** One element more passes the filter. *)
Lemma filter_length_one_more (l : list A) x :
  NoDup l → x ∈ l → ¬ P x → Q x → (∀ y, y ≠ x → (P y ↔ Q y)) →
  length (filter Q l) = S (length (filter P l)).
Proof.
  intros Hnd Hin HP HQ Hrest.
  induction l as [|a l IH]; [by apply elem_of_nil in Hin|].
  apply NoDup_cons in Hnd as [Ha Hnd].
  destruct (decide (a = x)) as [->|Hne].
  - rewrite filter_cons_True, filter_cons_False by done. cbn. f_equal.
    f_equal. symmetry. apply filter_ext_in.
    intros y Hy. apply Hrest. by intros ->.
  - apply elem_of_cons in Hin as [->|Hin]; [done|].
    rewrite !filter_cons. specialize (IH Hnd Hin).
    pose proof (Hrest a Hne) as Hiff.
    destruct (decide (P a)), (decide (Q a)); cbn; (lia || tauto).
Qed.
End filters.

(** A disc more of the mover, as many of the other player. *)
Lemma countDiscs_dropDisc board row col p q :
  wf_board board → emptyAt board row col →
  countDiscs (dropDisc board row col p) q =
    countDiscs board q + (if decide (q = p) then 1 else 0).
Proof.
  intros Hwf Hempty.
  pose proof (cellAt_Some_range _ _ _ _ Hwf Hempty) as [Hr Hc].
  assert (is_Some (cellAt board row col)) as Hsome by (by rewrite Hempty).
  unfold countDiscs. case_decide as Hq.
  - subst q.
    rewrite (filter_length_one_more
               (λ rc : Coord, cellAt board rc.1 rc.2 = Some (Some p))
               _ allCells (row, col)).
    + lia.
    + apply NoDup_allCells.
    + by apply elem_of_allCells.
    + cbn. unfold emptyAt in Hempty. congruence.
    + cbn. by apply cellAt_dropDisc_eq.
    + intros [r c] Hne. cbn. by rewrite cellAt_dropDisc_ne.
  - rewrite Z.add_0_r. do 2 f_equal. apply list_filter_iff.
    intros [r c]. cbn. destruct (decide ((r, c) = (row, col))) as [[= -> ->]|].
    + rewrite cellAt_dropDisc_eq by done. unfold emptyAt in Hempty.
      rewrite Hempty. split; intros [=]. congruence.
    + by rewrite cellAt_dropDisc_ne.
Qed.

(** Where every cell holds a disc the two counts add up to the 42 cells. *)
Lemma countDiscs_full board :
  (∀ r c, 0 ≤ r < ROWS → 0 ≤ c < COLUMNS → occupiedAt board r c) →
  countDiscs board red + countDiscs board yellow = 42.
Proof.
  intros Hall. unfold countDiscs.
  assert (∀ l : list Coord, (∀ rc, rc ∈ l → rc ∈ allCells) →
    (length (filter (λ rc : Coord, cellAt board rc.1 rc.2 = Some (Some red)) l)
     + length (filter (λ rc : Coord,
                         cellAt board rc.1 rc.2 = Some (Some yellow)) l)
     = length l)%nat) as Hsplit.
  { induction l as [|rc l IH]; intros Hl; [done|].
    rewrite !filter_cons.
    assert (occupiedAt board rc.1 rc.2) as Hocc.
    { pose proof (proj1 (elem_of_allCells rc) (Hl rc (list_elem_of_here _ _)))
        as [? ?]. by apply Hall. }
    specialize (IH (λ y Hy, Hl y (list_elem_of_further _ _ _ Hy))).
    apply occupiedAt_iff in Hocc as [q Hq]. rewrite Hq.
    destruct q; repeat case_decide; simplify_eq; cbn; lia. }
  specialize (Hsplit allCells (λ _ H, H)).
  change (length allCells) with 42%nat in Hsplit. lia.
Qed.

(** The lead of red along the moves. *)
Lemma reachable_redLead state :
  reachable state →
  countDiscs (gameBoard state) red =
    countDiscs (gameBoard state) yellow + redLead state.
Proof.
  induction 1 as [|fuel state col state' Hreach IH Hplace]; [by vm_compute|].
  pose proof (reachable_shape _ Hreach) as [Hwf _].
  destruct (placeDisc_cases _ _ _ _ Hwf Hplace)
    as [->|(row & Hres & Hr & Hc & [Hempty _] & Hcases)]; [done|].
  cbv zeta in Hcases.
  assert (redLead state = if decide (currentPlayer state = red) then 0 else 1)
    as Hlead.
  { unfold redLead. rewrite Hres. by destruct (currentPlayer state). }
  destruct Hcases as [(d & discs' & _ & _ & ->)|
                      [(_ & _ & ->)|(_ & _ & ->)]];
    cbn [gameBoard]; rewrite !countDiscs_dropDisc by done;
    unfold redLead, otherPlayer; cbn [result currentPlayer];
    destruct (currentPlayer state); repeat case_decide; simplify_eq; lia.
Qed.

(** X11. In a reachable state red has as many discs as yellow when it is
    red's turn or yellow made the deciding move, and one more when it is
    yellow's turn or red made the deciding move; while the game goes on,
    it is red's turn exactly when the two players have as many discs. *)
Theorem reachable_disc_counts state :
  reachable state →
  countDiscs (gameBoard state) red =
    countDiscs (gameBoard state) yellow + redLead state ∧
  (result state = continue →
   (currentPlayer state = red ↔
    countDiscs (gameBoard state) red = countDiscs (gameBoard state) yellow)).
Proof.
  intros Hreach. pose proof (reachable_redLead _ Hreach) as Hlead.
  split; [done|]. intros Hres. unfold redLead in Hlead. rewrite Hres in Hlead.
  destruct (currentPlayer state); split; intros; (done || lia).
Qed.

Lemma reachable_disc_counts_witness :
  countDiscs (gameBoard threeInARow) red =
    countDiscs (gameBoard threeInARow) yellow + redLead threeInARow ∧
  (result threeInARow = continue →
   (currentPlayer threeInARow = red ↔
    countDiscs (gameBoard threeInARow) red
    = countDiscs (gameBoard threeInARow) yellow)).
Proof.
  apply reachable_disc_counts.
  apply (playAll_reachable 7 getInitialState [0; 0; 1; 1; 2; 2]).
  - apply reachable_init.
  - reflexivity.
Defined.

(** X12. A reachable state with result [draw] has 21 discs of each player,
    and its [currentPlayer] is yellow: only yellow's move can end a game in
    a draw. *)
Theorem reachable_draw_counts state :
  reachable state → result state = draw →
  countDiscs (gameBoard state) red = 21 ∧
  countDiscs (gameBoard state) yellow = 21 ∧
  currentPlayer state = yellow.
Proof.
  intros Hreach Hres.
  pose proof (reachable_shape _ Hreach) as [Hwf Hgrav].
  pose proof (reachable_topRow _ Hreach) as [Hfull _].
  pose proof (countDiscs_full _ (gravity_full _ Hwf Hgrav (Hfull Hres)))
    as Hsum.
  pose proof (reachable_redLead _ Hreach) as Hlead.
  unfold redLead in Hlead. rewrite Hres in Hlead.
  destruct (currentPlayer state); [lia|]. split; [lia|]. split; [lia|done].
Qed.

Lemma reachable_draw_counts_witness :
  countDiscs (gameBoard drawnGame) red = 21 ∧
  countDiscs (gameBoard drawnGame) yellow = 21 ∧
  currentPlayer drawnGame = yellow.
Proof.
  apply reachable_draw_counts; [apply drawnGame_reachable|reflexivity].
Defined.

(** ** Further properties: four in a row *)

Lemma fourInARow_spec board p r c d :
  fourInARow board p r c d = true ↔
  ∀ k, 0 ≤ k < 4 → holds board p (stepTo r c d k) = true.
Proof.
  unfold fourInARow. rewrite forallb_forall. split.
  - intros H k Hk. apply H, list_elem_of_In, elem_of_seqZ. lia.
  - intros H k Hk. apply H. apply list_elem_of_In, elem_of_seqZ in Hk. lia.
Qed.

Lemma stepTo_shift r c d k0 r0 c0 i :
  stepTo r c d k0 = (r0, c0) → stepTo r0 c0 d i = stepTo r c d (i + k0).
Proof. unfold stepTo. intros [= <- <-]. f_equal; lia. Qed.

Lemma reaches_mono board p r0 c0 d k j :
  reaches board p r0 c0 d k = true → 0 ≤ j ≤ k ∨ k ≤ j ≤ 0 →
  reaches board p r0 c0 d j = true.
Proof.
  rewrite !reaches_spec. intros Hk Hj i Hi. apply Hk. lia.
Qed.

Lemma holds_dropDisc_ne board row col p q rc :
  rc ≠ (row, col) → holds (dropDisc board row col p) q rc = holds board q rc.
Proof.
  intros Hne. unfold holds. destruct rc as [r c]. cbn [fst snd].
  by rewrite cellAt_dropDisc_ne.
Qed.

(** Four in a row through a cell lie in the run through that cell. *)
Lemma fourInARow_run board p r c d k0 r0 c0 :
  0 ≤ r0 < ROWS → 0 ≤ c0 < COLUMNS → d ≠ (0, 0) →
  fourInARow board p r c d = true →
  0 ≤ k0 < 4 → stepTo r c d k0 = (r0, c0) →
  4 ≤ runLength board p r0 c0 d.
Proof.
  intros Hr0 Hc0 Hd Hfour Hk0 Hstep.
  rewrite fourInARow_spec in Hfour.
  set (four := stepTo r0 c0 d <$> seqZ (- k0) 4).
  assert (NoDup four) as Hnd.
  { apply NoDup_fmap_2_strong; [|apply NoDup_seqZ].
    intros ? ? _ _. by apply stepTo_inj. }
  assert (four ⊆+ axisRun board p r0 c0 d) as Hsub.
  { apply NoDup_submseteq; [done|]. intros rc Hin.
    apply list_elem_of_fmap in Hin as (j & -> & Hj).
    apply elem_of_seqZ in Hj.
    apply (axisRun_elem (mkGameState continue board p None) r0 c0 Hr0 Hc0 d
             _ Hd).
    exists j. split; [done|]. intros i Hi.
    rewrite (stepTo_shift _ _ _ _ _ _ i Hstep). apply Hfour. lia. }
  apply submseteq_length in Hsub. unfold four in Hsub.
  rewrite length_fmap, length_seqZ in Hsub. unfold runLength.
  unfold Coord in *. lia.
Qed.

(** Four in a row after a move were there before, or go through the new
    disc. *)
Lemma fourInARow_dropDisc board row col p q r c d :
  wf_board board → emptyAt board row col → d ≠ (0, 0) →
  fourInARow (dropDisc board row col p) q r c d = true →
  fourInARow board q r c d = true ∨
  (q = p ∧ 4 ≤ runLength (dropDisc board row col p) p row col d).
Proof.
  intros Hwf Hempty Hd Hfour.
  pose proof (cellAt_Some_range _ _ _ _ Hwf Hempty) as [Hr Hc].
  destruct (decide (Exists (λ k, stepTo r c d k = (row, col)) (seqZ 0 4)))
    as [Hex|Hex].
  - right. apply Exists_exists in Hex as (k0 & Hk0 & Hstep).
    apply elem_of_seqZ in Hk0.
    assert (q = p) as ->.
    { rewrite fourInARow_spec in Hfour. specialize (Hfour k0).
      rewrite Hstep in Hfour. apply holds_cellAt in Hfour; [|lia].
      cbn in Hfour. rewrite cellAt_dropDisc_eq in Hfour; [congruence|].
      by rewrite Hempty. }
    split; [done|]. apply (fourInARow_run _ _ r c d k0); [done..|lia|done].
  - left. rewrite fourInARow_spec in Hfour. apply fourInARow_spec.
    intros k Hk. rewrite <- (holds_dropDisc_ne board row col p); [by apply Hfour|].
    intros Heq. apply Hex, Exists_exists. exists k.
    split; [|done]. apply elem_of_seqZ. lia.
Qed.

(** The last point up to which a predicate on the first [n] numbers holds. *)
Lemma last_true (f : Z → bool) (n : nat) :
  f 0 = true → f (Z.of_nat n) = false →
  ∃ hi, 0 ≤ hi < Z.of_nat n ∧ f hi = true ∧ f (hi + 1) = false.
Proof.
  intros H0. induction n as [|n IH]; intros Hn.
  { change (Z.of_nat 0) with 0 in Hn. congruence. }
  destruct (f (Z.of_nat n)) eqn:E.
  - exists (Z.of_nat n). split; [lia|]. split; [done|].
    rewrite <- Hn. f_equal. lia.
  - destruct IH as (hi & Hhi & Ht & Hf); [done|].
    exists hi. split; [lia|done].
Qed.

(** A run of four cells or more has four in a row. *)
Lemma run_fourInARow board p r0 c0 d :
  0 ≤ r0 < ROWS → 0 ≤ c0 < COLUMNS → d ≠ (0, 0) →
  holds board p (r0, c0) = true →
  4 ≤ runLength board p r0 c0 d →
  ∃ r c, fourInARow board p r c d = true.
Proof.
  intros Hr0 Hc0 Hd Hh Hlen.
  set (state := mkGameState continue board p None).
  assert (∀ k, k ≠ 0 → reaches board p r0 c0 d k = true → -6 ≤ k ≤ 6)
    as Hbound.
  { intros k Hk Hreach. apply (inRun_bound state r0 c0 Hr0 Hc0 d k Hd).
    rewrite reaches_spec in Hreach. apply Hreach. lia. }
  assert (reaches board p r0 c0 d 0 = true) as H0 by done.
  destruct (last_true (λ k, reaches board p r0 c0 d k) 7 H0)
    as (hi & Hhi & Hhit & Hhif).
  { apply not_true_iff_false. intros H. apply Hbound in H; lia. }
  destruct (last_true (λ k, reaches board p r0 c0 d (- k)) 7 H0)
    as (lo & Hlo & Hlot & Hlof).
  { apply not_true_iff_false. intros H. apply Hbound in H; lia. }
  cbn beta in *.
  assert (∀ k, reaches board p r0 c0 d k = true → - lo ≤ k ≤ hi) as Hin.
  { intros k Hk. split.
    - destruct (Z_le_gt_dec (- lo) k) as [|Hgt]; [done|].
      rewrite (reaches_mono _ _ _ _ _ k (- (lo + 1))) in Hlof; [done|done|lia].
    - destruct (Z_le_gt_dec k hi) as [|Hgt]; [done|].
      rewrite (reaches_mono _ _ _ _ _ k (hi + 1)) in Hhif; [done|done|lia]. }
  assert (3 ≤ hi + lo) as Hwide.
  { destruct (Z_le_gt_dec 3 (hi + lo)) as [|Hgt]; [done|]. exfalso.
    assert (axisRun board p r0 c0 d ⊆+
              stepTo r0 c0 d <$> seqZ (- lo) (hi + lo + 1)) as Hsub.
    { apply NoDup_submseteq; [by apply (NoDup_axisRun state)|].
      intros rc Hrc. unfold axisRun in Hrc.
      apply list_elem_of_fmap in Hrc as (k & -> & Hk).
      apply list_elem_of_filter in Hk as [Hk _].
      apply list_elem_of_fmap. exists k. split; [done|].
      apply elem_of_seqZ. apply Hin in Hk. lia. }
    apply submseteq_length in Hsub.
    rewrite length_fmap, length_seqZ in Hsub. unfold runLength in Hlen.
    unfold Coord in *. lia. }
  set (a := Z.max (- lo) (-3)).
  exists (stepTo r0 c0 d a).1, (stepTo r0 c0 d a).2.
  apply fourInARow_spec. intros k Hk.
  assert (stepTo (stepTo r0 c0 d a).1 (stepTo r0 c0 d a).2 d k
          = stepTo r0 c0 d (a + k)) as ->.
  { unfold stepTo. cbn. f_equal; lia. }
  destruct (decide (a + k = 0)) as [->|Hne]; [by rewrite stepTo_0|].
  assert (reaches board p r0 c0 d (a + k) = true) as Hreach.
  { destruct (Z_le_gt_dec 0 (a + k)).
    - apply (reaches_mono _ _ _ _ _ hi); [done|lia].
    - apply (reaches_mono _ _ _ _ _ (- lo)); [done|lia]. }
  rewrite reaches_spec in Hreach. apply Hreach. lia.
Qed.

Lemma initial_no_disc r c p :
  cellAt (gameBoard getInitialState) r c ≠ Some (Some p).
Proof.
  unfold cellAt, getInitialState, gameBoard. intros Hp.
  destruct (js_index _ r) as [cells|] eqn:E; [|done].
  apply js_index_Some in E as [_ E]. apply lookup_replicate in E as [-> _].
  apply js_index_Some in Hp as [_ Hp].
  by apply lookup_replicate in Hp as [? _].
Qed.

(** Four in a row along the moves: only in a won game, and only of the
    winner. *)
Lemma reachable_four state q r c d :
  reachable state → d ∈ axes →
  fourInARow (gameBoard state) q r c d = true →
  result state = win ∧ q = currentPlayer state.
Proof.
  intros Hreach Hd. revert q r c.
  induction Hreach as [|fuel state col state' Hreach IH Hplace];
    intros q r c Hfour.
  - rewrite fourInARow_spec in Hfour. specialize (Hfour 0).
    apply holds_cellAt in Hfour; [|lia]. by apply initial_no_disc in Hfour.
  - pose proof (reachable_shape _ Hreach) as [Hwf _].
    destruct (placeDisc_cases _ _ _ _ Hwf Hplace)
      as [->|(row & Hres & Hr & Hc & [Hempty _] & Hcases)]; [by eapply IH|].
    cbv zeta in Hcases.
    assert (fourInARow (dropDisc (gameBoard state) row col (currentPlayer state))
              q r c d = true) as Hfour'.
    { by destruct Hcases as [(? & ? & _ & _ & ->)|[(_ & _ & ->)|(_ & _ & ->)]]. }
    apply fourInARow_dropDisc in Hfour'
      as [Hold|[-> Hlen]]; [| |done|done|by apply axes_nonzero].
    { apply IH in Hold as [Hwin _]. congruence. }
    destruct Hcases as [(? & ? & _ & _ & ->)|
                        [(Hnone & _ & ->)|(Hnone & _ & ->)]]; [done|..];
      apply Hnone in Hd; lia.
Qed.

Lemma reachable_win_four state :
  reachable state → result state = win →
  ∃ r c d, d ∈ axes ∧
    fourInARow (gameBoard state) (currentPlayer state) r c d = true.
Proof.
  induction 1 as [|fuel state col state' Hreach IH Hplace]; [done|].
  pose proof (reachable_shape _ Hreach) as [Hwf _].
  destruct (placeDisc_cases _ _ _ _ Hwf Hplace)
    as [->|(row & Hres & Hr & Hc & [Hempty _] & Hcases)]; [done|].
  cbv zeta in Hcases.
  destruct Hcases as [(d & discs & Hfirst & _ & ->)|
                      [(_ & _ & ->)|(_ & _ & ->)]]; [|done..].
  intros _. cbn [gameBoard currentPlayer].
  apply firstWinningAxis_wins in Hfirst as [Hd Hlen].
  destruct (run_fourInARow _ _ row col d Hr Hc (axes_nonzero _ Hd)
              (holds_dropDisc _ _ _ _ Hwf Hempty) Hlen) as (r & c & Hfour).
  by exists r, c, d.
Qed.

(** X13. In a reachable state the result is [win] exactly when four cells
    in a row along one of the four axes hold discs of one player, and that
    player is [currentPlayer]: no win goes unnoticed and none is declared
    without a line. *)
Theorem reachable_win_iff_four state :
  reachable state →
  (result state = win ↔
   ∃ p r c d, d ∈ axes ∧ fourInARow (gameBoard state) p r c d = true) ∧
  (∀ p r c d, d ∈ axes → fourInARow (gameBoard state) p r c d = true →
     p = currentPlayer state).
Proof.
  intros Hreach. split; [split|].
  - intros Hwin.
    destruct (reachable_win_four _ Hreach Hwin) as (r & c & d & Hd & Hfour).
    by exists (currentPlayer state), r, c, d.
  - intros (p & r & c & d & Hd & Hfour).
    by destruct (reachable_four _ _ _ _ _ Hreach Hd Hfour).
  - intros p r c d Hd Hfour.
    by destruct (reachable_four _ _ _ _ _ Hreach Hd Hfour).
Qed.

Lemma reachable_win_iff_four_witness :
  (result horizontalWin = win ↔
   ∃ p r c d, d ∈ axes ∧ fourInARow (gameBoard horizontalWin) p r c d = true) ∧
  (∀ p r c d, d ∈ axes → fourInARow (gameBoard horizontalWin) p r c d = true →
     p = currentPlayer horizontalWin).
Proof. apply reachable_win_iff_four, horizontalWin_reachable. Defined.

(** ** Further properties: the helpers on their own *)

(** X14. On a board of the right shape [getEmptyRow] returns -1 when the
    column has no empty cell, in particular for a column outside the board,
    and otherwise the index, from 0 to 5, of the lowest empty cell. *)
Theorem getEmptyRow_correct board col :
  wf_board board →
  ∃ row, getEmptyRow board col = Ret row ∧ -1 ≤ row < ROWS ∧
    (row = -1 ↔ columnFull board col) ∧
    (row ≠ -1 → lowestEmpty board col row) ∧
    (¬ 0 ≤ col < COLUMNS → row = -1).
Proof.
  intros Hwf.
  destruct (getEmptyRow_spec board col Hwf) as (row & Hget & Hspec).
  exists row. split; [done|].
  destruct Hspec as [[-> Hfull]|(Hr & Hc & Hlow)].
  - split; [unfold ROWS; lia|]. split; [done|]. split; [done|done].
  - split; [lia|]. split; [|split; [done|lia]].
    split; [lia|]. intros Hfull. destruct Hlow as [Hempty _].
    by apply Hfull in Hempty.
Qed.

Lemma getEmptyRow_correct_witness :
  ∃ row, getEmptyRow (gameBoard threeInARow) 0 = Ret row ∧ -1 ≤ row < ROWS ∧
    (row = -1 ↔ columnFull (gameBoard threeInARow) 0) ∧
    (row ≠ -1 → lowestEmpty (gameBoard threeInARow) 0 row) ∧
    (¬ 0 ≤ 0 < COLUMNS → row = -1).
Proof. apply getEmptyRow_correct. by apply wf_board_check. Defined.

(** X15. From a cell of the board, in any direction other than (0, 0) and
    with 7 rounds of fuel or more, [countCells] returns at most 6 cells,
    each once; all are on the board and hold a disc of the current player,
    and the cell it starts from is not among them. *)
Theorem countCells_cells fuel state row col d :
  wf_board (gameBoard state) → enoughFuel fuel →
  0 ≤ row < ROWS → 0 ≤ col < COLUMNS → d ≠ (0, 0) →
  ∃ discs, countCells fuel state row col d.1 d.2 = Ret discs ∧
    NoDup discs ∧ (length discs ≤ 6)%nat ∧ ((row, col) ∉ discs) ∧
    ∀ rc, rc ∈ discs →
      holds (gameBoard state) (currentPlayer state) rc = true.
Proof.
  intros Hwf Hfuel Hr Hc Hd.
  destruct (countCells_fwd state Hwf fuel row col Hfuel Hr Hc d Hd)
    as (discs & E & Hnd & Hin).
  exists discs. split; [done|]. split; [done|]. split; [|split].
  - assert (discs ⊆+ stepTo row col d <$> seqZ 1 6) as Hsub.
    { apply NoDup_submseteq; [done|]. intros rc Hrc.
      apply Hin in Hrc as (k & Hk & -> & Hall).
      apply list_elem_of_fmap. exists k. split; [done|].
      apply elem_of_seqZ.
      pose proof (inRun_bound state row col Hr Hc d k Hd) as Hb.
      assert (-6 ≤ k ≤ 6); [|lia]. apply Hb, Hall. lia. }
    apply submseteq_length in Hsub.
    by rewrite length_fmap, length_seqZ in Hsub.
  - intros Hrc. apply Hin in Hrc as (k & Hk & Heq & _).
    rewrite <- (stepTo_0 row col d) in Heq. apply stepTo_inj in Heq; [lia|done].
  - intros rc Hrc. apply Hin in Hrc as (k & Hk & -> & Hall). apply Hall. lia.
Qed.

Lemma countCells_cells_witness :
  ∃ discs, countCells 7 horizontalWin 5 0 0 1 = Ret discs ∧
    NoDup discs ∧ (length discs ≤ 6)%nat ∧ ((5, 0) ∉ discs) ∧
    ∀ rc, rc ∈ discs →
      holds (gameBoard horizontalWin) (currentPlayer horizontalWin) rc = true.
Proof.
  apply (countCells_cells 7 horizontalWin 5 0 (0, 1)).
  - by apply wf_board_check.
  - unfold enoughFuel. lia.
  - unfold ROWS. lia.
  - unfold COLUMNS. lia.
  - discriminate.
Defined.

Lemma readCell_dropDisc_ne board row col q r c :
  (r, c) ≠ (row, col) →
  readCell (dropDisc board row col q) r c = readCell board r c.
Proof.
  intros Hne. unfold readCell, dropDisc.
  destruct (js_index board row) as [cells|] eqn:E; [|done].
  destruct (decide (row = r)) as [->|Hr].
  - rewrite js_index_assign_eq by (by rewrite E). rewrite E.
    f_equal. apply js_index_assign_ne. congruence.
  - by rewrite js_index_assign_ne.
Qed.

(** The loop does not tell two boards apart that differ in a cell it does
    not walk over. *)
Lemma countCells_loop_ignores fuel res1 res2 board row col q p wd1 wd2
    r c dr dc :
  (∀ i, 0 ≤ i → (r + i * dr, c + i * dc) ≠ (row, col)) →
  countCells_loop fuel (mkGameState res1 (dropDisc board row col q) p wd1)
    r c dr dc =
  countCells_loop fuel (mkGameState res2 board p wd2) r c dr dc.
Proof.
  revert r c. induction fuel as [|fuel IH]; intros r c Hoff; [done|].
  cbn [countCells_loop gameBoard currentPlayer].
  rewrite readCell_dropDisc_ne.
  2: { specialize (Hoff 0). rewrite !Z.mul_0_l, !Z.add_0_r in Hoff.
       apply Hoff. lia. }
  rewrite IH; [done|]. intros i Hi.
  replace (r + dr + i * dr) with (r + (i + 1) * dr) by lia.
  replace (c + dc + i * dc) with (c + (i + 1) * dc) by lia.
  apply Hoff. lia.
Qed.

Lemma checkDirection_ignores fuel res1 res2 board row col q p wd1 wd2 dr dc :
  (dr, dc) ≠ (0, 0) →
  checkDirection fuel (mkGameState res1 (dropDisc board row col q) p wd1)
    row col dr dc =
  checkDirection fuel (mkGameState res2 board p wd2) row col dr dc.
Proof.
  intros Hd. unfold checkDirection, countCells.
  rewrite !(countCells_loop_ignores fuel res1 res2 board row col q p wd1 wd2);
    [done| |].
  - intros i Hi [= H1 H2]. apply Hd. f_equal; nia.
  - intros i Hi [= H1 H2]. apply Hd. f_equal; nia.
Qed.

(** X16. [isWinningMove] does not read the cell [(row, col)] it is asked
    about: with any disc put there, the opponent's too, it gives the answer
    it gives without. *)
Theorem isWinningMove_ignores_cell fuel state row col q :
  isWinningMove fuel
    (mkGameState (result state) (dropDisc (gameBoard state) row col q)
       (currentPlayer state) (winningDiscs state))
    row col =
  isWinningMove fuel state row col.
Proof.
  destruct state as [res board p wd]. cbn [result gameBoard currentPlayer
    winningDiscs]. unfold isWinningMove.
  by rewrite !(checkDirection_ignores fuel res res board row col q p wd wd).
Qed.

(** ** Further properties: the hook *)

Lemma hookRun_app fuel state evs evs' :
  hookRun fuel state (evs ++ evs') =
    s ← hookRun fuel state evs; hookRun fuel s evs'.
Proof.
  revert state. induction evs as [|ev evs IH]; intros state; [done|].
  cbn [app hookRun]. destruct (hookStep fuel state ev); cbn; [apply IH|done..].
Qed.

(** X17. With 7 rounds of fuel or more the hook answers every series of
    presses and resets without throwing; the state it holds is one reached
    from the initial state by calls of [placeDisc], and a reset at the end
    gives the initial state. *)
Theorem hookRun_reachable fuel evs :
  enoughFuel fuel →
  ∃ state, hookRun fuel getInitialState evs = Ret state ∧ reachable state ∧
    hookRun fuel getInitialState (evs ++ [ResetGame]) = Ret getInitialState.
Proof.
  intros Hfuel.
  assert (∀ state, reachable state →
    ∃ state', hookRun fuel state evs = Ret state' ∧ reachable state') as Hrun.
  { induction evs as [|ev evs IH]; intros state Hreach; [by exists state|].
    cbn [hookRun]. destruct ev as [col|]; cbn [hookStep].
    - pose proof (reachable_shape _ Hreach) as [Hwf _].
      destruct (placeDisc_returns fuel state col Hwf Hfuel) as [s E].
      rewrite E. cbn. apply IH. by eapply reachable_step.
    - cbn. apply IH, reachable_init. }
  destruct (Hrun _ reachable_init) as (state & E & Hreach).
  exists state. split; [done|]. split; [done|].
  rewrite hookRun_app, E. done.
Qed.

Lemma hookRun_reachable_witness :
  ∃ state,
    hookRun 7 getInitialState [PressCell 3; ResetGame; PressCell 9; PressCell 0]
    = Ret state ∧ reachable state ∧
    hookRun 7 getInitialState
      ([PressCell 3; ResetGame; PressCell 9; PressCell 0] ++ [ResetGame])
    = Ret getInitialState.
Proof. apply hookRun_reachable. unfold enoughFuel. lia. Defined.
